(** * fabric.io: the output and input relays

    A shallow embedding of [src/fabric/io.py] ([_flush], [_endswith],
    [output_loop], [input_loop]) together with the parts of
    [src/fabric/state.py] the two loops read ([env], [output], [win32]).

    Python values are modelled as follows.
    - [str] is [string]; a capture buffer is a Python [list] of one-character
      strings, modelled as [list ascii] living in a store of list objects,
      because [output_loop] both mutates the list it was given
      ([capture += byte], [del capture[-n:]]) and rebinds its local name to
      a fresh list ([capture = capture[:n]]).
    - Every call that leaves the function (channel reads and writes, pipe
      writes, credential cache, operator prompt) and every operation on a
      list object is recorded, in program order, in a list of [event]s. *)

From Stdlib Require Import Ascii String ZArith.
From stdpp Require Import base list strings gmap.

Local Open Scope string_scope.
Local Open Scope list_scope.

(** ** Python sequence operations used by the relays *)

Module Py.

Definition LF : ascii := "010"%char.
Definition CR : ascii := "013"%char.

(** [list(s)] *)
Definition chars (s : string) : list ascii := list_ascii_of_string s.

(** [len(s)] *)
Definition len (s : string) : nat := String.length s.

(** A one-character [str]. *)
Definition str1 (b : ascii) : string := String b EmptyString.

(** [l[-n:]] for [n >= 0]: [-0] is [0], so [l[-0:]] is the whole list; a
    start before the beginning of the list is clamped to it. *)
Definition slice_last {A} (n : nat) (l : list A) : list A :=
  match n with
  | O => l
  | S _ => drop (length l - n) l
  end.

(** The list after [del l[-n:]], for [n >= 0]. *)
Definition del_last {A} (n : nat) (l : list A) : list A :=
  match n with
  | O => []
  | S _ => take (length l - n) l
  end.

(** [l[:n]] for [n >= 0]. *)
Definition slice_first {A} (n : nat) (l : list A) : list A := take n l.

(** Truth value of an object that is [None] or a [str]. *)
Definition truthy (o : option string) : bool :=
  match o with
  | None => false
  | Some s => negb (String.eqb s "")
  end.

(** The [str] held by a value known not to be [None]. *)
Definition the_str (o : option string) : string := default "" o.

End Py.

(** ** fabric.state *)

(** The keys of [env] read by the relays. *)
Record Env := {
  host_string : string;
  colors : bool;
  color_settings_host_prefix : string -> string;
  sudo_prompt : string;
  again_prompt : string;
  echo_stdin : bool;
}.

(** The keys of [output] read by [output_loop]. *)
Record Output := {
  stdout : bool;
  stderr : bool;
}.

(** ** Collaborators *)

Inductive pipe := Stdout | Stderr.

(** Modelled from the spec: the credential cache of [fabric.auth]
    ([get_password], [set_password]) is not part of the sources at hand; the
    spec describes it as a single password plus a mapping from host
    identity to per-host overrides, read by [get_password] (an optional
    string) and written by [set_password]. *)
Record Cache := {
  password : option string;
  passwords : gmap string string;
}.

Definition cache_get (host : string) (c : Cache) : option string :=
  match passwords c !! host with
  | Some p => Some p
  | None => password c
  end.

Definition cache_set (host : string) (v : string) (c : Cache) : Cache :=
  {| password := Some v; passwords := <[host := v]> (passwords c) |}.

(** What the relays do to the outside, in program order. *)
Inductive event :=
| ERecv (which : string) (data : string)      (* getattr(chan, which)(1) *)
| EFlush (p : pipe) (text : string)           (* p.write(text); p.flush() *)
| EGetPassword (r : option string)            (* get_password() *)
| EPromptForPassword (p : pipe) (r : string)  (* prompt_for_password(stream=p) *)
| ESetPassword (pw : string)                  (* set_password(pw) *)
| ESendall (data : string)                    (* chan.sendall(data) *)
| EExtend (l : nat) (b : ascii)               (* object l: += b *)
| EDelTail (l : nat) (n : nat)                (* object l: del [-n:] *)
| ESlice (l : nat) (n : nat) (l' : nat)       (* object l' = (object l)[:n] *)
| EExitStatusReady (r : bool)                 (* chan.exit_status_ready() *)
| EHaveChar (r : bool)                        (* select(...) / msvcrt.kbhit() *)
| ERead (data : string).                      (* sys.stdin.read(1) / getch() *)

(** ** The state the output relay runs in *)

Record World := {
  heap : list (list ascii);   (* the Python list objects, by address *)
  cache : Cache;              (* the credential cache *)
  asked : nat;                (* calls of prompt_for_password so far *)
}.

(** A state-and-trace monad: a computation returns a value, the new world
    and the events it caused. *)
Record Res (A : Type) := mkRes { val : A; world : World; events : list event }.
Arguments mkRes {A} _ _ _.
Arguments val {A} _.
Arguments world {A} _.
Arguments events {A} _.

Definition M (A : Type) : Type := World -> Res A.

Definition ret {A} (a : A) : M A := fun w => mkRes a w [].

Definition bind {A B} (m : M A) (f : A -> M B) : M B :=
  fun w =>
    let r := m w in
    let r' := f (val r) (world r) in
    mkRes (val r') (world r') (events r ++ events r').

Notation "x <- m ;; k" := (bind m (fun x => k))
  (at level 100, m at next level, right associativity).
Notation "m ;;; k" := (bind m (fun _ => k))
  (at level 100, right associativity).

Definition emit (e : event) : M unit := fun w => mkRes tt w [e].

Definition when (c : bool) (m : M unit) : M unit := if c then m else ret tt.

(** The list object at address [l]. *)
Definition deref (w : World) (l : nat) : list ascii := default [] (heap w !! l).

Definition set_heap (h : list (list ascii)) (w : World) : World :=
  {| heap := h; cache := cache w; asked := asked w |}.

(** [capture += byte] on the object at [l]: the object is extended. *)
Definition extend (l : nat) (b : ascii) : M unit :=
  fun w => mkRes tt (set_heap (alter (fun o => o ++ [b]) l (heap w)) w) [EExtend l b].

(** [del capture[-n:]] on the object at [l]. *)
Definition del_tail (l : nat) (n : nat) : M unit :=
  fun w => mkRes tt (set_heap (alter (Py.del_last n) l (heap w)) w) [EDelTail l n].

(** [capture[:n]]: a new list object; its address is returned. *)
Definition slice (l : nat) (n : nat) : M nat :=
  fun w =>
    let l' := length (heap w) in
    mkRes l' (set_heap (heap w ++ [Py.slice_first n (deref w l)]) w) [ESlice l n l'].

(** Reading the object at [l]. *)
Definition load (l : nat) : M (list ascii) := fun w => mkRes (deref w l) w [].

(** ** fabric.io *)

Module Io.

(** *** [_flush] and [_endswith] *)

Definition _flush (p : pipe) (text : string) : M unit := emit (EFlush p text).

Definition _endswith (char_list : list ascii) (substring : string) : bool :=
  let tail := Py.slice_last (Py.len substring) char_list in
  let substring := Py.chars substring in
  bool_decide (tail = substring).

(** *** [output_loop] *)

Section OutputRelay.

Variable env : Env.
Variable output : Output.
(** The operator: the string typed at the [k]-th call of
    [prompt_for_password]. *)
Variable operator : nat -> string.

Definition get_password : M (option string) :=
  fun w =>
    let r := cache_get (host_string env) (cache w) in
    mkRes r w [EGetPassword r].

Definition set_password (pw : string) : M unit :=
  fun w =>
    mkRes tt {| heap := heap w;
                cache := cache_set (host_string env) pw (cache w);
                asked := asked w |}
          [ESetPassword pw].

Definition prompt_for_password (stream : pipe) : M string :=
  fun w =>
    let r := operator (asked w) in
    mkRes r {| heap := heap w; cache := cache w; asked := S (asked w) |}
          [EPromptForPassword stream r].

Definition sendall (data : string) : M unit := emit (ESendall data).

(** [func(1)] returning [data]. *)
Definition recv (which : string) (data : string) : M unit :=
  emit (ERecv which data).

(** Lines 69-71: the two tests, on the contents [cap] of the buffer. *)
Definition prompt (cap : list ascii) : bool :=
  _endswith cap (sudo_prompt env).

Definition try_again (cap : list ascii) : bool :=
  _endswith cap (again_prompt env +:+ Py.str1 Py.LF)
  || _endswith cap (again_prompt env +:+ Py.str1 Py.CR +:+ Py.str1 Py.LF).

(** The loop variables. [capture] is [None] for Python's [None] and the
    address of a list object otherwise. *)
Record Loop := {
  capture : option nat;
  reprompt : bool;
  initial_prefix_printed : bool;
}.

Section Stream.

Variable which : string.

Definition prefix : string := if String.eqb which "recv" then "out" else "err".
Definition opipe : pipe := if String.eqb which "recv" then Stdout else Stderr.

(** Computed by [output_loop] and not used by it afterwards. *)
Definition host_prefix : string :=
  let hp := "[" +:+ host_string env +:+ "]" in
  if colors env then color_settings_host_prefix env hp else hp.

Definition printing : bool :=
  if String.eqb which "recv" then stdout output else stderr output.

Definition _prefix : string :=
  "[" +:+ host_string env +:+ "] " +:+ prefix +:+ ": ".

(** Lines 56-65: what the operator is shown for [byte]; the result is
    the new value of [initial_prefix_printed]. *)
Definition display (st : Loop) (byte : ascii) : M bool :=
  if printing then
    when (negb (initial_prefix_printed st)) (_flush opipe _prefix) ;;;
    _flush opipe (Py.str1 byte) ;;;
    when (bool_decide (byte = Py.LF) || bool_decide (byte = Py.CR))
         (_flush opipe _prefix) ;;;
    ret true
  else ret (initial_prefix_printed st).

(** Lines 81-100: the password to send and the new value of [reprompt],
    given the value [cached] returned by [get_password]. In the second
    branch [cached] is true, so it is a non-empty [str]. *)
Definition resolve (st : Loop) (cached : option string) : M (string * bool) :=
  if negb (Py.truthy cached) || reprompt st then
    when (negb printing)
         (_flush opipe _prefix ;;;
          when (reprompt st)
               (_flush opipe (again_prompt env +:+ Py.str1 Py.LF +:+ _prefix)) ;;;
          _flush opipe (sudo_prompt env)) ;;;
    pw <- prompt_for_password opipe ;;
    set_password pw ;;;
    ret (pw, false)
  else ret (Py.the_str cached, reprompt st).

(** The body of the [while] loop after a non-empty read of [byte]. *)
Definition output_step (st : Loop) (byte : ascii) : M Loop :=
  match capture st with
  | None =>
      _flush Stdout (Py.str1 byte) ;;;
      ret st
  | Some c =>
      ipp <- display st byte ;;
      extend c byte ;;;
      cap <- load c ;;
      if prompt cap then
        cached <- get_password ;;
        del_tail c (Py.len (sudo_prompt env)) ;;;
        pr <- resolve st cached ;;
        sendall (fst pr +:+ Py.str1 Py.LF) ;;;
        ret {| capture := Some c; reprompt := snd pr;
               initial_prefix_printed := ipp |}
      else if try_again cap then
        c' <- slice c (Py.len (again_prompt env)) ;;
        ret {| capture := Some c'; reprompt := true;
               initial_prefix_printed := ipp |}
      else
        ret {| capture := Some c; reprompt := reprompt st;
               initial_prefix_printed := ipp |}
  end.

(** The iterations of the [while] loop that read the bytes of [data]. *)
Fixpoint output_bytes (st : Loop) (data : list ascii) : M Loop :=
  match data with
  | [] => ret st
  | byte :: rest =>
      recv which (Py.str1 byte) ;;;
      st' <- output_step st byte ;;
      output_bytes st' rest
  end.

(** [output_loop(chan, which, capture)] on a channel whose stream
    [which] yields [data] and then ends: the last read returns the empty
    string and leaves the loop. *)
Definition output_loop (capture0 : option nat) (data : list ascii) : M Loop :=
  st <- output_bytes {| capture := capture0; reprompt := false;
                        initial_prefix_printed := false |} data ;;
  recv which "" ;;;
  ret st.

End Stream.

End OutputRelay.

(** *** [input_loop] *)

(** The local input source: the bytes typed and not read yet, and whether
    the source has reached its end, where [select] reports it readable and
    [read(1)] returns the empty string. *)
Record Stdin := {
  pending : list ascii;
  closed : bool;
}.

(** What the outside does up to one evaluation of the loop condition and
    the poll that follows it: the remote process may have finished, bytes
    may have been typed, the input source may have ended. *)
Record Tick := {
  finished : bool;
  arrive : list ascii;
  eof : bool;
}.

Inductive status := Returned | Running.

Record InRes := mkInRes {
  in_status : status;
  in_stdin : Stdin;
  in_events : list event;
}.

Definition feed (t : Tick) (s : Stdin) : Stdin :=
  {| pending := pending s ++ arrive t; closed := closed s || eof t |}.

(** [sys.stdin.read(1)] or [msvcrt.getch()] once the poll has succeeded. *)
Definition read1 (s : Stdin) : string * Stdin :=
  match pending s with
  | [] => ("", s)
  | b :: rest => (Py.str1 b, {| pending := rest; closed := closed s |})
  end.

Section InputRelay.

Variable env : Env.
Variable win32 : bool.

(** [msvcrt.kbhit()], or [r and r[0] == sys.stdin] after [select]. *)
Definition have_char (s : Stdin) : bool :=
  if win32 then negb (bool_decide (pending s = []))
  else negb (bool_decide (pending s = [])) || closed s.

(** Lines 121-126. *)
Definition echo (using_pty : bool) (byte : string) : list event :=
  if negb using_pty && echo_stdin env then [EFlush Stdout byte] else [].

(** Lines 112-126: the body of the [while] loop. *)
Definition input_body (using_pty : bool) (s : Stdin) : Stdin * list event :=
  if have_char s then
    let byte := fst (read1 s) in
    (snd (read1 s),
     [EHaveChar true; ERead byte; ESendall byte] ++ echo using_pty byte)
  else (s, [EHaveChar false]).

(** [input_loop(chan, using_pty)] against the schedule [ticks]; a run that
    uses up the schedule before the channel reports completion is still
    [Running]. *)
Fixpoint input_loop (using_pty : bool) (s : Stdin) (ticks : list Tick) : InRes :=
  match ticks with
  | [] => mkInRes Running s []
  | t :: rest =>
      let s := feed t s in
      if finished t then mkInRes Returned s [EExitStatusReady true]
      else
        let body := input_body using_pty s in
        let r := input_loop using_pty (fst body) rest in
        mkInRes (in_status r) (in_stdin r)
                (EExitStatusReady false :: snd body ++ in_events r)
  end.

End InputRelay.

End Io.

Import Io.

(** ** The configuration of [fabric.state] *)

Definition default_env : Env :=
  {| host_string := "host"; colors := false; color_settings_host_prefix := id;
     sudo_prompt := "sudo password:"; again_prompt := "Sorry, try again.";
     echo_stdin := true |}.

Definition default_output : Output := {| stdout := true; stderr := true |}.

(** A world holding the list objects [h] and the cached password [pw]. *)
Definition mkWorld (h : list (list ascii)) (pw : option string) : World :=
  {| heap := h; cache := {| password := pw; passwords := ∅ |}; asked := 0 |}.

(** ** Observations on states and traces *)

Definition is_flush (e : event) : Prop :=
    match e with EFlush _ _ => True | _ => False end.


(** What resolving a password may do besides the final [sendall]. *)
Definition is_resolution (e : event) : Prop :=
  match e with
  | EFlush _ _ | EPromptForPassword _ _ | ESetPassword _ => True
  | _ => False
  end.

(** The bytes written to the channel, in order. *)
Definition sent_bytes (evs : list event) : list ascii :=
  flat_map (fun e => match e with ESendall d => Py.chars d | _ => [] end) evs.

(** The bytes read from the local input source, in order. *)
Definition read_bytes (evs : list event) : list ascii :=
  flat_map (fun e => match e with ERead d => Py.chars d | _ => [] end) evs.

(** The arguments of the calls of [chan.sendall], in order. *)
Definition forwarded (evs : list event) : list string :=
  omap (fun e => match e with ESendall d => Some d | _ => None end) evs.

Definition is_output (e : event) : bool :=
  match e with
  | ESendall _ | EFlush _ _ => true
  | _ => false
  end.


Section Observations.

Variable env : Env.
Variable output : Output.
Variable operator : nat -> string.
Variable which : string.

(** The list the capture variable names. *)
Definition buffer (st : Loop) (w : World) : list ascii :=
  match capture st with
  | Some c => deref w c
  | None => []
  end.

(** No match on any of the buffers [buf ++ take k bs], [0 < k]. *)
Definition quiet (buf bs : list ascii) : Prop :=
  forall k, 0 < k <= length bs ->
    prompt env (buf ++ take k bs) = false
    /\ try_again env (buf ++ take k bs) = false.

(** No prompt match at any of the bytes [bs], received one after the other
    from the state [st] in the world [w]. *)
Fixpoint unprompted (st : Loop) (w : World) (bs : list ascii) : Prop :=
  match bs with
  | [] => True
  | b :: rest =>
      prompt env (buffer st w ++ [b]) = false
      /\ unprompted (val (output_step env output operator which st b w))
                    (world (output_step env output operator which st b w)) rest
  end.

End Observations.

(** ** Configurations and inputs used below *)

(** An operator who types [secret] whenever asked. *)
Definition types_secret : nat -> string := fun _ => "secret".

(** A loop state at the start of a line, naming the list object [0]. *)
Definition fresh : Loop :=
  {| capture := Some 0; reprompt := false; initial_prefix_printed := false |}.

(** A configuration whose password prompt is also the end of the retry
    string followed by a line feed. *)
Definition overlapping_env : Env :=
  {| host_string := "host"; colors := false; color_settings_host_prefix := id;
     sudo_prompt := "again." +:+ Py.str1 Py.LF;
     again_prompt := "Sorry, try again."; echo_stdin := true |}.

Definition typing (bytes : string) : Tick :=
  {| finished := false; arrive := Py.chars bytes; eof := false |}.

Definition finishing (bytes : string) : Tick :=
  {| finished := true; arrive := Py.chars bytes; eof := false |}.

(** ** fabric.state: the dictionary classes *)

Module State.

(** The Python objects kept in the dictionaries. A [dict] or an
    [AttributeDict] is given by its items, keyed by strings. *)
#[warnings="-register-all"] Inductive value :=
| VNone
| VBool (b : bool)
| VInt (n : Z)
| VStr (s : string)
| VList (l : list value)
| VDict (d : gmap string value)
| VAttrDict (d : gmap string value).

Inductive exn :=
| KeyError (key : string)
| AttributeError (key : string)
| TypeError
| RuntimeError.   (* maximum recursion depth exceeded *)

(** What a method returns or raises, and the [_data] it leaves behind. *)
Definition outcome (A : Type) : Type := (exn + A) * gmap string value.

(** [bool(v)] *)
Definition truth (v : value) : bool :=
  match v with
  | VNone => false
  | VBool b => b
  | VInt n => negb (n =? 0)%Z
  | VStr s => negb (String.eqb s "")
  | VList l => negb (Nat.eqb (length l) 0)
  | VDict d | VAttrDict d => negb (Nat.eqb (size d) 0)
  end.

Module AttributeDict.

(** [AttributeDict(dict)]: [update] sets the items of [dict] one by one
    with [__setitem__], starting from an empty [_data]. *)
Definition __init__ (dict : gmap string value) : gmap string value :=
  foldr (fun kv data => <[kv.1 := kv.2]> data) ∅ (map_to_list dict).

Definition __getitem__ (key : string) (_data : gmap string value) : outcome value :=
  match _data !! key with
  | None => (inl (KeyError key), _data)
  | Some (VDict d) =>
      (* magically convert inner dicts into attributedicts *)
      let v := VAttrDict (__init__ d) in
      (inr v, <[key := v]> _data)
  | Some v => (inr v, _data)
  end.

Definition __setitem__ (key : string) (v : value) (_data : gmap string value)
  : outcome unit :=
  (inr tt, <[key := v]> _data).

Definition __delitem__ (key : string) (_data : gmap string value) : outcome unit :=
  match _data !! key with
  | None => (inl (KeyError key), _data)
  | Some _ => (inr tt, delete key _data)
  end.

(** [keys()], as a set: the order of the list is not specified. *)
Definition keys (_data : gmap string value) : gset string := dom _data.

Definition copy (_data : gmap string value) : gmap string value := __init__ _data.

Definition __getattr__ (key : string) (_data : gmap string value) : outcome value :=
  match __getitem__ key _data with
  | (inl (KeyError _), d) => (inl (AttributeError key), d)
  | r => r
  end.

Definition __setattr__ (key : string) (v : value) (_data : gmap string value)
  : outcome unit :=
  __setitem__ key v _data.

(** The names that the normal lookup of an attribute finds on an instance,
    so that [__getattr__] is not tried for them: the instance attribute
    [_data] (line 45) and the names defined in the body of the class. *)
Definition own_names : list string :=
  ["_data"; "__init__"; "__getitem__"; "__setitem__"; "__delitem__"; "keys";
   "copy"; "__getattr__"; "__setattr__"; "__str__"; "__repr__"].

(** What the read of an attribute gives: the attribute found by the normal
    lookup, or what [__getattr__] returns or raises. *)
Inductive attribute :=
| Found (name : string)
| Fallback (r : exn + value).

(** [self.key]. [inherited] tells the names found on the base classes,
    [object] and [UserDict.DictMixin], which are not part of the sources. *)
Definition getattr (inherited : string -> bool) (key : string)
    (_data : gmap string value) : attribute * gmap string value :=
  if bool_decide (key ∈ own_names) || inherited key then (Found key, _data)
  else let r := __getattr__ key _data in (Fallback r.1, r.2).

(** [self.key = v]: every assignment of an attribute goes to
    [__setattr__]. *)
Definition setattr (key : string) (v : value) (_data : gmap string value)
  : outcome unit :=
  __setattr__ key v _data.

End AttributeDict.

Module _AliasDict.

(** [self.aliases]: [None], the default of [__init__], or a mapping from
    alias names to lists of keys. *)
Definition aliases_t : Type := option (gmap string (list string)).

(** [__setitem__(key, value)]. [depth] bounds the depth of the recursion:
    Python raises [RuntimeError] when its stack is used up. *)
Fixpoint __setitem__ (depth : nat) (aliases : aliases_t) (key : string)
    (v : value) (_data : gmap string value) : outcome unit :=
  match depth with
  | O => (inl RuntimeError, _data)
  | S depth' =>
      match aliases with
      | None => (inl TypeError, _data)        (* key in None *)
      | Some al =>
          match al !! key with
          | Some aliased =>
              (fix each (ks : list string) (d : gmap string value) : outcome unit :=
                 match ks with
                 | [] => (inr tt, d)
                 | k :: ks' =>
                     match __setitem__ depth' aliases k v d with
                     | (inr _, d') => each ks' d'
                     | (inl e, d') => (inl e, d')
                     end
                 end) aliased _data
          | None => AttributeDict.__setitem__ key v _data
          end
      end
  end.

(** [expand_aliases(keys)], with the same bound on the recursion. *)
Fixpoint expand_aliases (depth : nat) (aliases : aliases_t) (keys : list string)
  : exn + list string :=
  match depth with
  | O => inl RuntimeError
  | S depth' =>
      (fix each (ks : list string) : exn + list string :=
         match ks with
         | [] => inr []
         | key :: ks' =>
             match aliases with
             | None => inl TypeError          (* key in None *)
             | Some al =>
                 match al !! key with
                 | Some aliased =>
                     match expand_aliases depth' aliases aliased with
                     | inl e => inl e
                     | inr ret =>
                         match each ks' with
                         | inl e => inl e
                         | inr ret' => inr (ret ++ ret')
                         end
                     end
                 | None =>
                     match each ks' with
                     | inl e => inl e
                     | inr ret' => inr (key :: ret')
                     end
                 end
             end
         end) keys
  end.

(** [update(items)]: [self[k] = v] for the items in the order given. *)
Fixpoint update (depth : nat) (aliases : aliases_t) (items : list (string * value))
    (_data : gmap string value) : outcome unit :=
  match items with
  | [] => (inr tt, _data)
  | (k, v) :: items' =>
      match __setitem__ depth aliases k v _data with
      | (inr _, d') => update depth aliases items' d'
      | (inl e, d') => (inl e, d')
      end
  end.

(** [_AliasDict(arg, aliases)], [arg] given by its items in the order in
    which [update] meets them. *)
Definition __init__ (depth : nat) (arg : option (list (string * value)))
    (aliases : aliases_t) : outcome unit :=
  match arg with
  | Some items => update depth aliases items ∅
  | None => (inr tt, ∅)
  end.

End _AliasDict.

(** The aliases and the initial items of [output]. *)
Definition output_aliases : gmap string (list string) :=
  list_to_map [("everything", ["warnings"; "running"; "user"; "output"]);
               ("output", ["stdout"; "stderr"])].

Definition output_items : list (string * value) :=
  [("status", VBool true); ("aborts", VBool true); ("warnings", VBool true);
   ("running", VBool true); ("stdout", VBool true); ("stderr", VBool true);
   ("debug", VBool false); ("user", VBool true)].

(** What [output_loop] reads from [output]: [getattr(output, 'stdout')]
    and [getattr(output, 'stderr')], used as conditions. *)
Definition output_flags (_data : gmap string value) : option Output :=
  match _data !! "stdout", _data !! "stderr" with
  | Some o, Some e => Some {| stdout := truth o; stderr := truth e |}
  | _, _ => None
  end.

End State.

(** ** fabric.decorators *)

Module Decorators.

(** What is passed to [hosts] and [roles]. *)
#[warnings="-register-all"] Inductive arg :=
| AStr (s : string)         (* a [basestring] *)
| ASeq (items : list arg)   (* a list, a tuple or another iterable, by its
                               items in the order of iteration *)
| AOther.                   (* an object that cannot be iterated: [None],
                               a number *)

Definition is_basestring (a : arg) : bool :=
  match a with AStr _ => true | _ => false end.

(** [list(x)] *)
Definition list_of (x : arg) : State.exn + list arg :=
  match x with
  | ASeq items => inr items
  | AStr s => inr (map (fun c => AStr (Py.str1 c)) (Py.chars s))
  | AOther => inl State.TypeError
  end.

(** Lines 72-75 and 109-112: the arguments, or the only argument when it
    is not a string. *)
Definition unpack (args : list arg) : arg :=
  match args with
  | [only] => if negb (is_basestring only) then only else ASeq args
  | _ => ASeq args
  end.

Section Functions.

(** The arguments of a call, the state a call runs in, the values
    returned and the exceptions raised. *)
Context {A W V E : Type}.

(** A function object: its code and the attributes the decorators read
    or write. *)
Record function := {
  call : A -> W -> (E + V) * W;
  __name__ : string;
  __doc__ : option string;
  hosts_attr : option (list arg);      (* [func.hosts] *)
  roles_attr : option (list arg);      (* [func.roles] *)
  return_value_attr : option V;        (* [func.return_value] *)
}.

Definition attach_hosts (host_list : list arg) (func : function)
  : State.exn + function :=
  match list_of (unpack host_list) with
  | inl e => inl e
  | inr l =>
      inr {| call := call func; __name__ := __name__ func;
             __doc__ := __doc__ func; hosts_attr := Some l;
             roles_attr := roles_attr func;
             return_value_attr := return_value_attr func |}
  end.

Definition hosts (host_list : list arg) : function -> State.exn + function :=
  attach_hosts host_list.

Definition attach_roles (role_list : list arg) (func : function)
  : State.exn + function :=
  match list_of (unpack role_list) with
  | inl e => inl e
  | inr l =>
      inr {| call := call func; __name__ := __name__ func;
             __doc__ := __doc__ func; hosts_attr := hosts_attr func;
             roles_attr := Some l;
             return_value_attr := return_value_attr func |}
  end.

Definition roles (role_list : list arg) : function -> State.exn + function :=
  attach_roles role_list.

(** The function object [decorated] made by [run_once]: [wraps(func)]
    gives it the name, the documentation and the attributes of [func]. *)
Record wrapper := {
  _decorated : function;
  w__name__ : string;
  w__doc__ : option string;
  w_hosts : option (list arg);
  w_roles : option (list arg);
  return_value : option V;
}.

Definition run_once (func : function) : wrapper :=
  {| _decorated := func; w__name__ := __name__ func; w__doc__ := __doc__ func;
     w_hosts := hosts_attr func; w_roles := roles_attr func;
     return_value := return_value_attr func |}.

Definition set_return_value (v : V) (self : wrapper) : wrapper :=
  {| _decorated := _decorated self; w__name__ := w__name__ self;
     w__doc__ := w__doc__ self; w_hosts := w_hosts self; w_roles := w_roles self;
     return_value := Some v |}.

(** A call of [decorated]: what it returns or raises, the wrapper and the
    state afterwards. *)
Definition decorated (self : wrapper) (args : A) (w : W)
  : (E + V) * (wrapper * W) :=
  match return_value self with
  | Some v => (inr v, (self, w))
  | None =>
      match call (_decorated self) args w with
      | (inr v, w') => (inr v, (set_return_value v self, w'))
      | (inl e, w') => (inl e, (self, w'))
      end
  end.

(** Calls of [decorated] one after the other. *)
Fixpoint decorated_calls (self : wrapper) (argss : list A) (w : W)
  : list (E + V) * (wrapper * W) :=
  match argss with
  | [] => ([], (self, w))
  | args :: rest =>
      let r := decorated self args w in
      let rs := decorated_calls r.2.1 rest r.2.2 in
      (r.1 :: rs.1, rs.2)
  end.

End Functions.

Arguments function : clear implicits.
Arguments wrapper : clear implicits.

End Decorators.

(** ** Observations on alias tables *)

(** An alias table without cycles: [rank] goes down from an alias to the
    keys it stands for. *)
Definition ranked (al : gmap string (list string)) (rank : string -> nat) : Prop :=
  forall k ks, al !! k = Some ks ->
    0 < rank k /\ Forall (fun k' => rank k' < rank k) ks.

(** Setting the keys [ks] directly, without looking at aliases. *)
Definition set_keys (ks : list string) (v : State.value)
    (d : gmap string State.value) : gmap string State.value :=
  foldl (fun d k => <[k := v]> d) d ks.

(** ** Further observations on traces *)

Definition pipe_eqb (p q : pipe) : bool :=
  match p, q with
  | Stdout, Stdout | Stderr, Stderr => true
  | _, _ => false
  end.

(** The text written to the pipe [p], in order. *)
Definition flushed (p : pipe) (evs : list event) : list ascii :=
  flat_map (fun e => match e with
                     | EFlush q text => if pipe_eqb p q then Py.chars text else []
                     | _ => []
                     end) evs.

Definition is_flushb (e : event) : bool :=
  match e with EFlush _ _ => true | _ => false end.

Definition is_sendall (e : event) : bool :=
  match e with ESendall _ => true | _ => false end.

Definition is_get_password (e : event) : bool :=
  match e with EGetPassword _ => true | _ => false end.

Definition is_del_tail (e : event) : bool :=
  match e with EDelTail _ _ => true | _ => false end.

Definition is_ask (e : event) : bool :=
  match e with EPromptForPassword _ _ => true | _ => false end.

Definition is_set_password (e : event) : bool :=
  match e with ESetPassword _ => true | _ => false end.

(** The number of events of the kind [f]. *)
Definition count (f : event -> bool) (evs : list event) : nat :=
  length (List.filter f evs).

(** The events that are not writes to a pipe. *)
Definition skeleton (evs : list event) : list event :=
  List.filter (fun e => negb (is_flushb e)) evs.

(** What a printing relay writes for the byte [b]: the byte, and after a
    line feed or a carriage return the line prefix [pre]. *)
Definition shown (pre : string) (b : ascii) : list ascii :=
  b :: (if bool_decide (b = Py.LF) || bool_decide (b = Py.CR)
        then Py.chars pre else []).

(** ** Further configurations and inputs used below *)

(** Output of both streams hidden. *)
Definition hidden_output : Output := {| stdout := false; stderr := false |}.

(** A rank for the aliases of [output]. *)
Definition output_rank (k : string) : nat :=
  if String.eqb k "everything" then 2
  else if String.eqb k "output" then 1 else 0.

(** Names found on the base classes of [AttributeDict]: methods of
    [UserDict.DictMixin] and attributes of [object]. *)
Definition base_names : list string :=
  ["__iter__"; "has_key"; "__contains__"; "iteritems"; "iterkeys";
   "itervalues"; "values"; "items"; "clear"; "setdefault"; "pop"; "popitem";
   "update"; "get"; "__cmp__"; "__len__"; "__class__"; "__dict__"; "__doc__";
   "__module__"].

Definition on_base_classes (key : string) : bool :=
  bool_decide (key ∈ base_names).

(** A function that returns the sum of its argument and of a counter,
    and counts its runs. *)
Definition counting : Decorators.function nat nat nat string :=
  {| Decorators.call := fun a w => (inr (a + w), S w);
     Decorators.__name__ := "counting"; Decorators.__doc__ := None;
     Decorators.hosts_attr := None; Decorators.roles_attr := None;
     Decorators.return_value_attr := None |}.

(** A function that raises at its first run and returns its argument
    afterwards. *)
Definition failing_first : Decorators.function nat nat nat string :=
  {| Decorators.call := fun a w =>
       if Nat.eqb w 0 then (inl "failed", S w) else (inr a, S w);
     Decorators.__name__ := "failing_first"; Decorators.__doc__ := None;
     Decorators.hosts_attr := None; Decorators.roles_attr := None;
     Decorators.return_value_attr := None |}.

(** A function that carries a [return_value] attribute. *)
Definition marked : Decorators.function nat nat nat string :=
  {| Decorators.call := fun a w => (inr (a + w), S w);
     Decorators.__name__ := "marked"; Decorators.__doc__ := None;
     Decorators.hosts_attr := None; Decorators.roles_attr := None;
     Decorators.return_value_attr := Some 7 |}.

(** * Properties *)

(** ** Python sequences *)

Lemma chars_app (s t : string) : Py.chars (s +:+ t) = Py.chars s ++ Py.chars t.
Proof.
  unfold Py.chars. induction s as [|a s IH]; simpl; [done|]. by rewrite IH.
Qed.

Lemma length_chars (s : string) : length (Py.chars s) = Py.len s.
Proof.
  unfold Py.chars, Py.len. induction s as [|a s IH]; simpl; [done|]. by rewrite IH.
Qed.

Lemma chars_str1 (b : ascii) : Py.chars (Py.str1 b) = [b].
Proof. done. Qed.

(** A successful [_endswith] means that the list ends with the characters
    of the string. *)
Lemma _endswith_suffix (l : list ascii) (s : string) :
  _endswith l s = true -> Py.chars s `suffix_of` l.
Proof.
  unfold _endswith. intros H. apply bool_decide_eq_true in H.
  destruct (Py.len s) as [|n] eqn:E; simpl in H.
  - by rewrite <- H.
  - rewrite <- H. apply suffix_drop.
Qed.

(** Conversely, except that [l[-0:]] is all of [l]: the empty string is
    found at the end of the empty list only. *)
Lemma suffix__endswith (l : list ascii) (s : string) :
  Py.chars s `suffix_of` l -> s <> "" \/ l = [] -> _endswith l s = true.
Proof.
  intros [k ->] Hne. unfold _endswith. apply bool_decide_eq_true.
  destruct (Py.len s) as [|n] eqn:E; simpl.
  - destruct s; [|done]. destruct Hne as [?|Hk]; [done|].
    by apply app_eq_nil in Hk as [-> _].
  - rewrite <- E, length_app, length_chars.
    replace (length k + Py.len s - Py.len s) with (length k) by lia.
    by rewrite drop_app_length.
Qed.

(** On a match at the end of a non-empty list, [del l[-len(s):]] removes
    exactly the characters of [s]. *)
Lemma _endswith_del_last (l : list ascii) (s : string) :
  _endswith l s = true -> l <> [] ->
  Py.del_last (Py.len s) l ++ Py.chars s = l
  /\ length (Py.del_last (Py.len s) l) + Py.len s = length l.
Proof.
  unfold _endswith. intros H Hl. apply bool_decide_eq_true in H.
  destruct (Py.len s) as [|n] eqn:E; simpl in *.
  - destruct s; [|done]. by destruct Hl.
  - rewrite <- H, take_drop. split; [done|].
    assert (length (Py.chars s) = S n) as Hlen by (by rewrite length_chars).
    rewrite <- H, length_drop in Hlen. rewrite length_take. lia.
Qed.

(** ** The credential cache and the store of list objects *)

Lemma cache_get_set (host v : string) (c : Cache) :
  cache_get host (cache_set host v c) = Some v.
Proof. unfold cache_get, cache_set. simpl. by rewrite lookup_insert_eq. Qed.

Lemma extend_lookup (c : nat) (b : ascii) (w : World) (buf : list ascii) :
  heap w !! c = Some buf ->
  heap (world (extend c b w)) !! c = Some (buf ++ [b]).
Proof.
  intros H. simpl. rewrite list_lookup_alter, decide_True by done. by rewrite H.
Qed.

Lemma del_tail_lookup (c n : nat) (w : World) (buf : list ascii) :
  heap w !! c = Some buf ->
  heap (world (del_tail c n w)) !! c = Some (Py.del_last n buf).
Proof.
  intros H. simpl. rewrite list_lookup_alter, decide_True by done. by rewrite H.
Qed.

Lemma slice_lookup (c n : nat) (w : World) (buf : list ascii) :
  heap w !! c = Some buf ->
  heap (world (slice c n w)) !! c = Some buf
  /\ heap (world (slice c n w)) !! val (slice c n w) = Some (Py.slice_first n buf).
Proof.
  intros H. simpl. split.
  - apply lookup_app_l_Some, H.
  - unfold deref. rewrite H. simpl. by rewrite list_lookup_middle.
Qed.

Section OutputFacts.

Variable env : Env.
Variable output : Output.
Variable operator : nat -> string.
Variable which : string.

Abbreviation display := (display env output which).
Abbreviation resolve := (resolve env output operator which).
Abbreviation output_step := (output_step env output operator which).
Abbreviation output_bytes := (output_bytes env output operator which).
Abbreviation output_loop := (output_loop env output operator which).
Abbreviation opipe := (opipe which).
Abbreviation prompt := (prompt env).
Abbreviation try_again := (try_again env).
Abbreviation quiet := (quiet env).
Abbreviation unprompted := (unprompted env output operator which).

Lemma display_world st b w : world (display st b w) = w.
Proof.
  unfold Io.display, when.
  destruct (printing output which), (initial_prefix_printed st),
    (bool_decide (b = Py.LF) || bool_decide (b = Py.CR)); reflexivity.
Qed.

Lemma display_events st b w : Forall is_flush (events (display st b w)).
Proof.
  unfold Io.display, when.
  destruct (printing output which), (initial_prefix_printed st),
    (bool_decide (b = Py.LF) || bool_decide (b = Py.CR)); simpl;
    repeat constructor.
Qed.

(** [output_step] on a buffer, branch by branch. *)
Lemma output_step_eq st b w c buf :
  capture st = Some c -> heap w !! c = Some buf ->
  output_step st b w =
    let d := display st b w in
    let w1 := world (extend c b w) in
    let cap := buf ++ [b] in
    if prompt cap then
      let cached := cache_get (host_string env) (cache w) in
      let n := Py.len (sudo_prompt env) in
      let r := resolve st cached (world (del_tail c n w1)) in
      mkRes {| capture := Some c; reprompt := snd (val r);
               initial_prefix_printed := val d |}
            (world r)
            (events d ++ [EExtend c b; EGetPassword cached; EDelTail c n]
               ++ events r ++ [ESendall (fst (val r) +:+ Py.str1 Py.LF)])
    else if try_again cap then
      let n := Py.len (again_prompt env) in
      mkRes {| capture := Some (length (heap w)); reprompt := true;
               initial_prefix_printed := val d |}
            (world (slice c n w1))
            (events d ++ [EExtend c b; ESlice c n (length (heap w))])
    else
      mkRes {| capture := Some c; reprompt := reprompt st;
               initial_prefix_printed := val d |}
            w1
            (events d ++ [EExtend c b]).
Proof.
  intros Hc Hb.
  assert (deref (world (extend c b w)) c = buf ++ [b]) as Hcap.
  { unfold deref. by rewrite (extend_lookup _ _ _ _ Hb). }
  unfold Io.output_step. rewrite Hc.
  cbv beta delta [bind load]. cbn [val world events].
  rewrite display_world, Hcap.
  destruct (prompt (buf ++ [b])); [|destruct (try_again (buf ++ [b]))].
  - reflexivity.
  - cbn. by rewrite length_alter.
  - reflexivity.
Qed.

(** *** Resolving the password *)

Lemma resolve_cached st cached w :
  Py.truthy cached = true -> reprompt st = false ->
  resolve st cached w = mkRes (Py.the_str cached, false) w [].
Proof.
  intros Ht Hr. unfold Io.resolve. by rewrite Ht, Hr.
Qed.

Lemma resolve_ask st cached w :
  Py.truthy cached = false \/ reprompt st = true ->
  exists notice,
    Forall is_flush notice
    /\ resolve st cached w =
         mkRes (operator (asked w), false)
               {| heap := heap w;
                  cache := cache_set (host_string env) (operator (asked w)) (cache w);
                  asked := S (asked w) |}
               (notice ++ [EPromptForPassword opipe (operator (asked w));
                           ESetPassword (operator (asked w))]).
Proof.
  intros Hask. unfold Io.resolve.
  assert (negb (Py.truthy cached) || reprompt st = true) as ->.
  { destruct Hask as [-> | ->]; [done|]. by rewrite orb_true_r. }
  unfold when.
  destruct (printing output which), (reprompt st); cbn;
    eexists; (split; [|reflexivity]); repeat constructor.
Qed.

Lemma resolve_heap st cached w : heap (world (resolve st cached w)) = heap w.
Proof.
  destruct (Py.truthy cached) eqn:Ht; [destruct (reprompt st) eqn:Hr|].
  - destruct (resolve_ask st cached w) as (n & _ & ->); auto.
  - by rewrite resolve_cached.
  - destruct (resolve_ask st cached w) as (n & _ & ->); auto.
Qed.

(** Whatever the cache holds, [reprompt] is false once a password has been
    resolved. *)
Lemma resolve_reprompt st cached w : snd (val (resolve st cached w)) = false.
Proof.
  destruct (Py.truthy cached) eqn:Ht; [destruct (reprompt st) eqn:Hr|].
  - destruct (resolve_ask st cached w) as (n & _ & ->); auto.
  - by rewrite resolve_cached.
  - destruct (resolve_ask st cached w) as (n & _ & ->); auto.
Qed.

(** *** The loop *)

Lemma output_bytes_cons st b rest w :
  output_bytes st (b :: rest) w =
    let r1 := output_step st b w in
    let r2 := output_bytes (val r1) rest (world r1) in
    mkRes (val r2) (world r2)
          (ERecv which (Py.str1 b) :: events r1 ++ events r2).
Proof. reflexivity. Qed.

Lemma output_loop_eq capture0 data w :
  output_loop capture0 data w =
    let r := output_bytes {| capture := capture0; reprompt := false;
                             initial_prefix_printed := false |} data w in
    mkRes (val r) (world r) (events r ++ [ERecv which ""]).
Proof. reflexivity. Qed.

(** The capture variable always names a list object of the store. *)
Lemma output_step_valid st b w c buf :
  capture st = Some c -> heap w !! c = Some buf ->
  exists c' buf',
    capture (val (output_step st b w)) = Some c'
    /\ heap (world (output_step st b w)) !! c' = Some buf'.
Proof.
  intros Hc Hb. rewrite (output_step_eq _ _ _ _ _ Hc Hb). cbv zeta.
  pose proof (extend_lookup c b w buf Hb) as Hext.
  destruct (prompt _); [|destruct (try_again _)]; cbn [val world capture].
  - exists c. eexists. split; [done|]. rewrite resolve_heap.
    by apply del_tail_lookup.
  - eexists _, _. split; [done|].
    pose proof (slice_lookup c (Py.len (again_prompt env)) _ _ Hext) as [_ H].
    cbn [val slice world extend set_heap heap] in H.
    rewrite length_alter in H. exact H.
  - by exists c, (buf ++ [b]).
Qed.

Lemma quiet_cons buf b bs :
  quiet buf (b :: bs) ->
  prompt (buf ++ [b]) = false /\ try_again (buf ++ [b]) = false
  /\ quiet (buf ++ [b]) bs.
Proof.
  intros H. split_and!.
  - apply (H 1). simpl. lia.
  - apply (H 1). simpl. lia.
  - intros k Hk. rewrite <- app_assoc. apply (H (S k)). simpl. lia.
Qed.

Lemma output_bytes_quiet bs : forall st w c buf,
  capture st = Some c -> heap w !! c = Some buf -> quiet buf bs ->
  let r := output_bytes st bs w in
  capture (val r) = Some c /\ reprompt (val r) = reprompt st
  /\ heap (world r) !! c = Some (buf ++ bs) /\ cache (world r) = cache w.
Proof.
  induction bs as [|b bs IH]; intros st w c buf Hc Hb Hq.
  - cbn. by rewrite app_nil_r.
  - apply quiet_cons in Hq as (Hp & Hr & Hq).
    rewrite output_bytes_cons. cbv zeta. cbn [val world].
    rewrite (output_step_eq _ _ _ _ _ Hc Hb). cbv zeta. rewrite Hp, Hr.
    cbn [val world].
    specialize (IH {| capture := Some c; reprompt := reprompt st;
                      initial_prefix_printed := val (display st b w) |}
                   (world (extend c b w)) c (buf ++ [b]) eq_refl
                   (extend_lookup c b w buf Hb) Hq).
    cbv zeta in IH. destruct IH as (-> & -> & -> & ->).
    by rewrite <- app_assoc.
Qed.

(** ** The output relay *)

Lemma buffer_lookup st w c buf :
  capture st = Some c -> heap w !! c = Some buf -> buffer st w = buf.
Proof. intros Hc Hb. unfold buffer, deref. by rewrite Hc, Hb. Qed.

(** A retry match that is not also a prompt match: the list given by the
    caller keeps every byte, and the capture variable names a new list made
    of the first [len(env.again_prompt)] bytes of the buffer. *)
Lemma output_step_retry st b w c buf :
  capture st = Some c -> heap w !! c = Some buf ->
  prompt (buf ++ [b]) = false -> try_again (buf ++ [b]) = true ->
  let r := output_step st b w in
  capture (val r) = Some (length (heap w))
  /\ reprompt (val r) = true
  /\ heap (world r) !! c = Some (buf ++ [b])
  /\ heap (world r) !! length (heap w)
     = Some (Py.slice_first (Py.len (again_prompt env)) (buf ++ [b])).
Proof.
  intros Hc Hb Hp Hr. cbv zeta.
  rewrite (output_step_eq _ _ _ _ _ Hc Hb). cbv zeta. rewrite Hp, Hr.
  cbn [val world capture reprompt].
  pose proof (slice_lookup c (Py.len (again_prompt env)) _ _
                (extend_lookup c b w buf Hb)) as [H1 H2].
  cbn [val slice world extend set_heap heap] in H2.
  rewrite length_alter in H2. done.
Qed.

(** A prompt match whose password has to be asked for. *)
Lemma output_step_ask st b w c buf :
  capture st = Some c -> heap w !! c = Some buf ->
  prompt (buf ++ [b]) = true ->
  Py.truthy (cache_get (host_string env) (cache w)) = false
  \/ reprompt st = true ->
  let r := output_step st b w in
  let pw := operator (asked w) in
  exists notice,
    Forall (is_flush) notice
    /\ events r =
         events (display st b w)
           ++ [EExtend c b;
               EGetPassword (cache_get (host_string env) (cache w));
               EDelTail c (Py.len (sudo_prompt env))]
           ++ (notice ++ [EPromptForPassword opipe pw; ESetPassword pw])
           ++ [ESendall (pw +:+ Py.str1 Py.LF)]
    /\ cache (world r) = cache_set (host_string env) pw (cache w)
    /\ reprompt (val r) = false.
Proof.
  intros Hc Hb Hp Hask. cbv zeta.
  rewrite (output_step_eq _ _ _ _ _ Hc Hb). cbv zeta. rewrite Hp.
  destruct (resolve_ask st
              (cache_get (host_string env) (cache w))
              (world (del_tail c (Py.len (sudo_prompt env))
                        (world (extend c b w)))) Hask)
    as (notice & Hn & ->).
  exists notice. cbn. done.
Qed.

Lemma output_bytes_unprompted bs : forall st w c buf,
  capture st = Some c -> heap w !! c = Some buf ->
  reprompt st = true -> unprompted st w bs ->
  let r := output_bytes st bs w in
  reprompt (val r) = true
  /\ exists c' buf', capture (val r) = Some c' /\ heap (world r) !! c' = Some buf'.
Proof.
  induction bs as [|b bs IH]; intros st w c buf Hc Hb Hre Hun.
  - cbn. eauto.
  - destruct Hun as [Hp Hun]. rewrite (buffer_lookup _ _ _ _ Hc Hb) in Hp.
    rewrite output_bytes_cons. cbv zeta. cbn [val world].
    destruct (output_step_valid st b w c buf Hc Hb)
      as (c' & buf' & Hc' & Hb').
    apply (IH _ _ c' buf' Hc' Hb'); [|done].
    rewrite (output_step_eq _ _ _ _ _ Hc Hb). cbv zeta. rewrite Hp.
    by destruct (try_again _).
Qed.

(** C3. In capture mode, when none of the buffers reached while the bytes
    [bs] are received matches the password prompt or the retry string
    followed by a line terminator, the list given by the caller holds, at
    the end, its initial contents followed by exactly the bytes received,
    in order. *)
Theorem capture_is_concatenation c init bs w :
  heap w !! c = Some init ->
  (forall k, 0 < k <= length bs ->
     _endswith (init ++ take k bs) (sudo_prompt env) = false
     /\ _endswith (init ++ take k bs)
                  (again_prompt env +:+ Py.str1 Py.LF) = false
     /\ _endswith (init ++ take k bs)
                  (again_prompt env +:+ Py.str1 Py.CR +:+ Py.str1 Py.LF) = false) ->
  let r := output_loop (Some c) bs w in
  capture (val r) = Some c /\ heap (world r) !! c = Some (init ++ bs).
Proof.
  intros Hb Hno. rewrite output_loop_eq. cbv zeta. cbn [val world].
  assert (quiet init bs) as Hq.
  { intros k Hk. destruct (Hno k Hk) as (H1 & H2 & H3). split; [done|].
    unfold Io.try_again. by rewrite H2, H3. }
  destruct (output_bytes_quiet bs
              {| capture := Some c; reprompt := false;
                 initial_prefix_printed := false |} w c init eq_refl Hb Hq)
    as (H1 & _ & H2 & _).
  done.
Qed.

Lemma output_bytes_raw st data : forall w,
  capture st = None ->
  output_bytes st data w
  = mkRes st w
      (flat_map (fun b => [ERecv which (Py.str1 b); EFlush Stdout (Py.str1 b)]) data).
Proof.
  intros w Hst. revert w. induction data as [|b data IH]; intros w; [done|].
  rewrite output_bytes_cons. cbv zeta.
  assert (output_step st b w = mkRes st w [EFlush Stdout (Py.str1 b)]) as ->.
  { unfold Io.output_step. by rewrite Hst. }
  cbn [val world events]. by rewrite IH.
Qed.

(** C6. With [capture] being [None], whatever bytes are received, each one
    is read and written as it is to standard output and nothing else
    happens: no prefix, no prompt detection, no write to the channel, and
    the credential cache and the store are left as they were. *)
Theorem raw_passthrough data w :
  let r := output_loop None data w in
  events r
  = flat_map (fun b => [ERecv which (Py.str1 b); EFlush Stdout (Py.str1 b)]) data
      ++ [ERecv which ""]
  /\ Forall (fun e => forall d, e <> ESendall d) (events r)
  /\ Forall (fun e => forall o, e <> EGetPassword o) (events r)
  /\ world r = w
  /\ capture (val r) = None.
Proof.
  cbv zeta. rewrite output_loop_eq. cbv zeta.
  rewrite output_bytes_raw by done. cbn [val world events capture].
  split_and!; try done.
  - apply Forall_app. split; [|by repeat constructor].
    apply Forall_flat_map, Forall_forall. intros b _. by repeat constructor.
  - apply Forall_app. split; [|by repeat constructor].
    apply Forall_flat_map, Forall_forall. intros b _. by repeat constructor.
Qed.

(** A prompt match, whatever else matches. *)
Lemma output_step_prompt st b w c buf :
  capture st = Some c -> heap w !! c = Some buf ->
  prompt (buf ++ [b]) = true ->
  let r := output_step st b w in
  let n := Py.len (sudo_prompt env) in
  exists pw mid,
    Forall is_resolution mid
    /\ events r =
         events (display st b w)
           ++ [EExtend c b;
               EGetPassword (cache_get (host_string env) (cache w));
               EDelTail c n]
           ++ mid ++ [ESendall (pw +:+ Py.str1 Py.LF)]
    /\ capture (val r) = Some c
    /\ reprompt (val r) = false
    /\ heap (world r) !! c = Some (Py.del_last n (buf ++ [b]))
    /\ length (heap (world r)) = length (heap w).
Proof.
  intros Hc Hb Hp. cbv zeta.
  rewrite (output_step_eq _ _ _ _ _ Hc Hb). cbv zeta. rewrite Hp.
  assert (heap (world (del_tail c (Py.len (sudo_prompt env))
                          (world (extend c b w)))) !! c
          = Some (Py.del_last (Py.len (sudo_prompt env)) (buf ++ [b]))) as Hh.
  { apply del_tail_lookup, extend_lookup, Hb. }
  assert (length (heap (world (del_tail c (Py.len (sudo_prompt env))
                                  (world (extend c b w)))))
          = length (heap w)) as Hl.
  { cbn. by rewrite !length_alter. }
  revert Hh Hl.
  generalize (world (del_tail c (Py.len (sudo_prompt env)) (world (extend c b w)))).
  intros w2 Hh Hl.
  cbn [val world events capture reprompt].
  rewrite resolve_reprompt, resolve_heap, Hh, Hl.
  set (cached := cache_get (host_string env) (cache w)).
  destruct (Py.truthy cached) eqn:Ht; [destruct (reprompt st) eqn:Hr|].
  - destruct (resolve_ask st cached w2) as (notice & Hn & ->); [auto|].
    eexists _, _. split; [|done]. apply Forall_app. split.
    + eapply Forall_impl; [exact Hn|]. by intros [].
    + by repeat constructor.
  - rewrite resolve_cached by done. by exists (Py.the_str cached), [].
  - destruct (resolve_ask st cached w2) as (notice & Hn & ->); [auto|].
    eexists _, _. split; [|done]. apply Forall_app. split.
    + eapply Forall_impl; [exact Hn|]. by intros [].
    + by repeat constructor.
Qed.


(** C5, amended. On a prompt match while [get_password] returns a
    non-empty string and [reprompt] is false, that string followed by a
    line feed is written to the channel, the operator is not asked, and the
    cache is left as it was. *)
Theorem cached_password_sent_without_asking st b w c buf pw :
  capture st = Some c -> heap w !! c = Some buf ->
  prompt (buf ++ [b]) = true ->
  cache_get (host_string env) (cache w) = Some pw -> pw <> "" ->
  reprompt st = false ->
  let r := output_step st b w in
  events r =
    events (display st b w)
      ++ [EExtend c b; EGetPassword (Some pw);
          EDelTail c (Py.len (sudo_prompt env));
          ESendall (pw +:+ Py.str1 Py.LF)]
  /\ Forall (fun e => forall p a, e <> EPromptForPassword p a) (events r)
  /\ cache (world r) = cache w
  /\ asked (world r) = asked w.
Proof.
  intros Hc Hb Hp Hget Hne Hre. cbv zeta.
  assert (Py.truthy (Some pw) = true) as Ht.
  { simpl. apply negb_true_iff. by apply String.eqb_neq. }
  rewrite (output_step_eq _ _ _ _ _ Hc Hb). cbv zeta. rewrite Hp, Hget.
  rewrite resolve_cached by done. cbn [val world events fst snd Py.the_str default].
  split_and!; try done.
  apply Forall_app. split.
  - eapply Forall_impl; [apply display_events|]. by intros [] ? ? ?.
  - by repeat constructor.
Qed.

(** C9. On a prompt match while [get_password] returns the empty string and
    [reprompt] is false, the operator is asked and what the operator types,
    followed by a line feed, is what the channel receives; the password is
    resolved exactly as when [get_password] returns [None]. *)
Theorem empty_cached_password_is_no_password st b w c buf :
  capture st = Some c -> heap w !! c = Some buf ->
  prompt (buf ++ [b]) = true ->
  cache_get (host_string env) (cache w) = Some "" ->
  reprompt st = false ->
  let r := output_step st b w in
  let pw := operator (asked w) in
  (exists notice,
     Forall is_flush notice
     /\ events r =
          events (display st b w)
            ++ [EExtend c b; EGetPassword (Some "");
                EDelTail c (Py.len (sudo_prompt env))]
            ++ (notice ++ [EPromptForPassword opipe pw; ESetPassword pw])
            ++ [ESendall (pw +:+ Py.str1 Py.LF)])
  /\ (forall w', resolve st (Some "") w' = resolve st None w').
Proof.
  intros Hc Hb Hp Hget Hre. cbv zeta. split.
  - destruct (output_step_ask st b w c buf Hc Hb Hp) as (notice & Hn & Hev & _).
    { left. by rewrite Hget. }
    exists notice. split; [done|]. by rewrite Hev, Hget.
  - intros w'. reflexivity.
Qed.

(** The trace of a step with a prompt match, by the way the password is
    resolved. *)
Lemma output_step_prompt_trace st b w c buf :
  capture st = Some c -> heap w !! c = Some buf ->
  prompt (buf ++ [b]) = true ->
  let r := output_step st b w in
  let cached := cache_get (host_string env) (cache w) in
  let n := Py.len (sudo_prompt env) in
  let pw := operator (asked w) in
  (Py.truthy cached = true /\ reprompt st = false
   /\ events r =
        events (display st b w)
          ++ [EExtend c b; EGetPassword cached; EDelTail c n;
              ESendall (Py.the_str cached +:+ Py.str1 Py.LF)]
   /\ cache (world r) = cache w)
  \/ ((Py.truthy cached = false \/ reprompt st = true)
      /\ exists notice,
           Forall is_flush notice
           /\ events r =
                events (display st b w)
                  ++ [EExtend c b; EGetPassword cached; EDelTail c n]
                  ++ notice
                  ++ [EPromptForPassword opipe pw; ESetPassword pw;
                      ESendall (pw +:+ Py.str1 Py.LF)]
           /\ cache (world r) = cache_set (host_string env) pw (cache w)).
Proof.
  intros Hc Hb Hp. cbv zeta.
  destruct (Py.truthy (cache_get (host_string env) (cache w))) eqn:Ht;
    [destruct (reprompt st) eqn:Hre|].
  2: { left. rewrite (output_step_eq _ _ _ _ _ Hc Hb). cbv zeta. rewrite Hp.
       rewrite resolve_cached by done. by cbn. }
  all: right; (split; [auto|]);
    destruct (output_step_ask st b w c buf Hc Hb Hp) as (notice & Hn & Hev & Hca & _);
    [auto|]; exists notice; (split; [done|]); (split; [|done]);
    rewrite Hev; by rewrite <- !(assoc_L (++)).
Qed.

(** C10. When a byte makes the buffer match both the password prompt and
    the retry string followed by a line terminator, the prompt is handled:
    the bytes of the prompt, and only they, are taken off the end of the
    list the capture variable names, the password is resolved as for any
    prompt match (the cached one when it is non-empty and [reprompt] is
    false, the one the operator types otherwise) and written to the
    channel, no new list is made, and [reprompt] is false afterwards. *)
Theorem prompt_match_shadows_retry_match st b w c buf :
  capture st = Some c -> heap w !! c = Some buf ->
  prompt (buf ++ [b]) = true -> try_again (buf ++ [b]) = true ->
  let r := output_step st b w in
  let cached := cache_get (host_string env) (cache w) in
  let n := Py.len (sudo_prompt env) in
  let pw := operator (asked w) in
  capture (val r) = Some c
  /\ reprompt (val r) = false
  /\ heap (world r) !! c
     = Some (Py.del_last (Py.len (sudo_prompt env)) (buf ++ [b]))
  /\ length (heap (world r)) = length (heap w)
  /\ (exists pw pre, events r = pre ++ [ESendall (pw +:+ Py.str1 Py.LF)])
  /\ Forall (fun e => forall l n l', e <> ESlice l n l') (events r)
  /\ (exists buf',
        heap (world r) !! c = Some buf'
        /\ buf' ++ Py.chars (sudo_prompt env) = buf ++ [b]
        /\ length buf' + n = length (buf ++ [b]))
  /\ ((Py.truthy cached = true /\ reprompt st = false
       /\ events r =
            events (display st b w)
              ++ [EExtend c b; EGetPassword cached; EDelTail c n;
                  ESendall (Py.the_str cached +:+ Py.str1 Py.LF)]
       /\ cache (world r) = cache w)
      \/ ((Py.truthy cached = false \/ reprompt st = true)
          /\ exists notice,
               Forall is_flush notice
               /\ events r =
                    events (display st b w)
                      ++ [EExtend c b; EGetPassword cached; EDelTail c n]
                      ++ notice
                      ++ [EPromptForPassword opipe pw; ESetPassword pw;
                          ESendall (pw +:+ Py.str1 Py.LF)]
               /\ cache (world r) = cache_set (host_string env) pw (cache w))).
Proof.
  intros Hc Hb Hp _. cbv zeta.
  destruct (output_step_prompt st b w c buf Hc Hb Hp)
    as (pw & mid & Hmid & Hev & Hcap & Hre & Hheap & Hlen).
  assert (buf ++ [b] <> []) as Hne by (by destruct buf).
  destruct (_endswith_del_last _ _ Hp Hne) as [Happ Hlength].
  split_and!; try done.
  - exists pw. eexists. rewrite Hev. by rewrite !(assoc_L (++)).
  - rewrite Hev. repeat (apply Forall_app; split).
    + eapply Forall_impl; [apply display_events|]. by intros [] ? ? ? ?.
    + by repeat constructor.
    + eapply Forall_impl; [exact Hmid|]. by intros [] ? ? ? ?.
    + by repeat constructor.
  - by eexists.
  - exact (output_step_prompt_trace st b w c buf Hc Hb Hp).
Qed.

(** C4. After a byte [b0] that is handled as a retry match, and further
    bytes [bs] none of which gives a prompt match, [reprompt] is set; the
    next byte [b] that gives a prompt match makes the relay ask the
    operator, whatever the cache holds, store the password typed in the
    cache, send it to the channel and clear [reprompt]. *)
Theorem retry_forces_fresh_password st b0 bs b w c buf :
  capture st = Some c -> heap w !! c = Some buf ->
  prompt (buf ++ [b0]) = false -> try_again (buf ++ [b0]) = true ->
  let r1 := output_step st b0 w in
  unprompted (val r1) (world r1) bs ->
  let r2 := output_bytes (val r1) bs (world r1) in
  prompt (buffer (val r2) (world r2) ++ [b]) = true ->
  let r3 := output_step (val r2) b (world r2) in
  let pw := operator (asked (world r2)) in
  reprompt (val r1) = true
  /\ reprompt (val r2) = true
  /\ (exists pre,
        events r3 = pre ++ [EPromptForPassword opipe pw; ESetPassword pw;
                            ESendall (pw +:+ Py.str1 Py.LF)])
  /\ cache_get (host_string env) (cache (world r3)) = Some pw
  /\ reprompt (val r3) = false.
Proof.
  intros Hc Hb Hp0 Hr0. cbv zeta. intros Hun Hp.
  destruct (output_step_retry st b0 w c buf Hc Hb Hp0 Hr0)
    as (Hc1 & Hre1 & _ & Hb1).
  destruct (output_bytes_unprompted bs _ _ _ _ Hc1 Hb1 Hre1 Hun)
    as (Hre2 & c2 & buf2 & Hc2 & Hb2).
  rewrite (buffer_lookup _ _ _ _ Hc2 Hb2) in Hp.
  destruct (output_step_ask _ b _ c2 buf2 Hc2 Hb2 Hp (or_intror Hre2))
    as (notice & _ & Hev & Hcache & Hre3).
  split_and!; try done.
  - eexists. rewrite Hev. rewrite !(assoc_L (++)).
    rewrite <- (assoc_L (++) _ [_; _] [_]). reflexivity.
  - rewrite Hcache. apply cache_get_set.
Qed.

End OutputFacts.

(** ** The input relay *)

Section InputFacts.

Variable env : Env.
Variable win32 : bool.

Abbreviation input_body := (input_body env win32).
Abbreviation input_loop := (input_loop env win32).
Abbreviation echo := (echo env).

Lemma input_loop_finished using_pty s t post :
  finished t = true ->
  input_loop using_pty s (t :: post)
  = mkInRes Returned (feed t s) [EExitStatusReady true].
Proof. intros H. simpl. by rewrite H. Qed.

Lemma input_loop_unfinished using_pty s t rest :
  finished t = false ->
  input_loop using_pty s (t :: rest)
  = let body := input_body using_pty (feed t s) in
    let r := input_loop using_pty (fst body) rest in
    mkInRes (in_status r) (in_stdin r)
            (EExitStatusReady false :: snd body ++ in_events r).
Proof. intros H. simpl. by rewrite H. Qed.

(** One poll: a byte is forwarded exactly when one is pending, it is the
    oldest one, and what is read is what is sent. *)
Lemma input_body_bytes using_pty s :
  let body := input_body using_pty s in
  sent_bytes (snd body) = take 1 (pending s)
  /\ pending (fst body) = drop 1 (pending s)
  /\ read_bytes (snd body) = sent_bytes (snd body)
  /\ (EExitStatusReady true ∉ snd body).
Proof.
  unfold Io.input_body, have_char, read1, Io.echo.
  destruct (pending s) as [|b more] eqn:E, win32, (closed s),
    (negb using_pty && echo_stdin env); cbn; rewrite ?E;
    split_and!; try done;
    rewrite ?not_elem_of_cons; split_and!; try done; apply not_elem_of_nil.
Qed.

Lemma sent_bytes_app evs evs' :
  sent_bytes (evs ++ evs') = sent_bytes evs ++ sent_bytes evs'.
Proof. unfold sent_bytes. by rewrite flat_map_app. Qed.





(** C8. In the trace of the input relay, every write to the channel is
    followed by a write of the same data to standard output when no
    pseudo-terminal is used and [env.echo_stdin] is on, and there is no
    write to standard output at all otherwise. *)
Theorem echo_iff_no_pty_and_echo_stdin using_pty ticks : forall s,
  let evs := in_events (input_loop using_pty s ticks) in
  List.filter is_output evs
  = flat_map (fun d => ESendall d ::
                       (if negb using_pty && echo_stdin env
                        then [EFlush Stdout d] else []))
             (forwarded evs).
Proof.
  induction ticks as [|t ticks IH]; intros s; [done|].
  cbv zeta. cbn [Io.input_loop].
  destruct (finished t); [done|]. cbn [in_events].
  specialize (IH (fst (input_body using_pty (feed t s)))). cbv zeta in IH.
  unfold Io.input_body at 1 3. unfold Io.echo.
  destruct (have_char win32 (feed t s)); cbn [fst snd];
    destruct (negb using_pty && echo_stdin env); cbn; by rewrite IH.
Qed.

End InputFacts.

(** * The relays at work *)

(** C1. The list [['a']] is given as [capture] and the channel yields
    [Sorry, try again.] and a line feed. The list given by the caller is
    not truncated: it still ends with the line feed. The capture variable
    names a new list, which holds the first 17 bytes of the buffer and so
    neither keeps the whole retry string nor only drops the line feed. *)
Theorem retry_match_rebinds_and_cuts_from_the_front :
  let r := output_loop default_env default_output types_secret "recv" (Some 0)
             (Py.chars ("Sorry, try again." +:+ Py.str1 Py.LF))
             (mkWorld [Py.chars "a"] None) in
  heap (world r) !! 0 = Some (Py.chars ("aSorry, try again." +:+ Py.str1 Py.LF))
  /\ heap (world r) !! 0 <> Some (Py.chars "aSorry, try again.")
  /\ capture (val r) = Some 1
  /\ heap (world r) !! 1 = Some (Py.chars "aSorry, try again")
  /\ heap (world r) !! 1 <> Some (Py.chars "aSorry, try again.").
Proof. vm_compute. split_and!; done. Qed.

(** What is received after a retry match never reaches the list given by
    the caller. *)
Example bytes_after_retry_match_miss_the_caller :
  let r := output_loop default_env default_output types_secret "recv" (Some 0)
             (Py.chars ("Sorry, try again." +:+ Py.str1 Py.LF +:+ "xy"))
             (mkWorld [[]] None) in
  heap (world r) !! 0 = Some (Py.chars ("Sorry, try again." +:+ Py.str1 Py.LF))
  /\ heap (world r) !! 1 = Some (Py.chars "Sorry, try again.xy").
Proof. vm_compute. done. Qed.


Lemma capture_is_concatenation_witness :
  let r := output_loop default_env default_output types_secret "recv" (Some 0)
             (Py.chars "cd") (mkWorld [Py.chars "ab"] None) in
  capture (val r) = Some 0
  /\ heap (world r) !! 0 = Some (Py.chars "ab" ++ Py.chars "cd").
Proof.
  apply (capture_is_concatenation default_env default_output types_secret
           "recv" 0 (Py.chars "ab") (Py.chars "cd")
           (mkWorld [Py.chars "ab"] None)).
  - reflexivity.
  - intros k Hk. assert (k = 1 \/ k = 2) as [-> | ->] by (simpl in Hk; lia);
      vm_compute; done.
Defined.

Lemma retry_forces_fresh_password_witness :
  let st := fresh in
  let w := mkWorld [Py.chars "Sorry, try again."] (Some "pw") in
  let bs := Py.chars "sudo password" in
  let r1 := output_step default_env default_output types_secret "recv" st Py.LF w in
  let r2 := output_bytes default_env default_output types_secret "recv"
              (val r1) bs (world r1) in
  let r3 := output_step default_env default_output types_secret "recv"
              (val r2) ":" (world r2) in
  let pw := types_secret (asked (world r2)) in
  reprompt (val r1) = true
  /\ reprompt (val r2) = true
  /\ (exists pre,
        events r3 = pre ++ [EPromptForPassword (opipe "recv") pw; ESetPassword pw;
                            ESendall (pw +:+ Py.str1 Py.LF)])
  /\ cache_get (host_string default_env) (cache (world r3)) = Some pw
  /\ reprompt (val r3) = false.
Proof.
  apply (retry_forces_fresh_password default_env default_output types_secret
           "recv" fresh Py.LF (Py.chars "sudo password") ":"
           (mkWorld [Py.chars "Sorry, try again."] (Some "pw"))
           0 (Py.chars "Sorry, try again.")).
  - reflexivity.
  - reflexivity.
  - vm_compute. reflexivity.
  - vm_compute. reflexivity.
  - vm_compute. split_and!; reflexivity.
  - vm_compute. reflexivity.
Defined.

(** C5 as stated fails when the cached password is the empty string: the
    cache holds a password, [reprompt] is false, the prompt is matched, and
    the operator is asked. *)
Lemma empty_cached_password_asks_operator :
  let st := fresh in
  let w := mkWorld [Py.chars "sudo password"] (Some "") in
  let r := output_step default_env default_output types_secret "recv" st ":" w in
  cache_get (host_string default_env) (cache w) = Some ""
  /\ reprompt st = false
  /\ prompt default_env (Py.chars "sudo password" ++ [":"%char]) = true
  /\ events r =
       [EFlush Stdout "[host] out: "; EFlush Stdout ":"; EExtend 0 ":";
        EGetPassword (Some ""); EDelTail 0 14;
        EPromptForPassword Stdout "secret"; ESetPassword "secret";
        ESendall ("secret" +:+ Py.str1 Py.LF)]
  /\ ~ Forall (fun e => forall p a, e <> EPromptForPassword p a) (events r).
Proof.
  cbv zeta. split_and!; try (vm_compute; reflexivity).
  intros H. apply Forall_forall with (x := EPromptForPassword Stdout "secret") in H.
  - by apply (H Stdout "secret").
  - vm_compute. repeat constructor.
Qed.

Lemma cached_password_sent_without_asking_witness :
  let st := fresh in
  let w := mkWorld [Py.chars "sudo password"] (Some "pw") in
  let r := output_step default_env default_output types_secret "recv" st ":" w in
  events r =
    events (display default_env default_output "recv" st ":" w)
      ++ [EExtend 0 ":"; EGetPassword (Some "pw");
          EDelTail 0 (Py.len (sudo_prompt default_env));
          ESendall ("pw" +:+ Py.str1 Py.LF)]
  /\ Forall (fun e => forall p a, e <> EPromptForPassword p a) (events r)
  /\ cache (world r) = cache w
  /\ asked (world r) = asked w.
Proof.
  apply (cached_password_sent_without_asking default_env default_output
           types_secret "recv" fresh ":"
           (mkWorld [Py.chars "sudo password"] (Some "pw"))
           0 (Py.chars "sudo password") "pw"); try reflexivity.
  discriminate.
Defined.

Lemma empty_cached_password_is_no_password_witness :
  let st := fresh in
  let w := mkWorld [Py.chars "sudo password"] (Some "") in
  let r := output_step default_env default_output types_secret "recv" st ":" w in
  let pw := types_secret (asked w) in
  (exists notice,
     Forall is_flush notice
     /\ events r =
          events (display default_env default_output "recv" st ":" w)
            ++ [EExtend 0 ":"; EGetPassword (Some "");
                EDelTail 0 (Py.len (sudo_prompt default_env))]
            ++ (notice ++ [EPromptForPassword (opipe "recv") pw; ESetPassword pw])
            ++ [ESendall (pw +:+ Py.str1 Py.LF)])
  /\ (forall w', resolve default_env default_output types_secret "recv" st (Some "") w'
               = resolve default_env default_output types_secret "recv" st None w').
Proof.
  apply (empty_cached_password_is_no_password default_env default_output
           types_secret "recv" fresh ":"
           (mkWorld [Py.chars "sudo password"] (Some ""))
           0 (Py.chars "sudo password")); reflexivity.
Defined.

Lemma prompt_match_shadows_retry_match_witness :
  let st := fresh in
  let w := mkWorld [Py.chars "Sorry, try again."] None in
  let buf := Py.chars "Sorry, try again." in
  let r := output_step overlapping_env default_output types_secret "recv" st Py.LF w in
  let cached := cache_get (host_string overlapping_env) (cache w) in
  let n := Py.len (sudo_prompt overlapping_env) in
  let pw := types_secret (asked w) in
  capture (val r) = Some 0
  /\ reprompt (val r) = false
  /\ heap (world r) !! 0
     = Some (Py.del_last (Py.len (sudo_prompt overlapping_env)) (buf ++ [Py.LF]))
  /\ length (heap (world r)) = length (heap w)
  /\ (exists pw pre, events r = pre ++ [ESendall (pw +:+ Py.str1 Py.LF)])
  /\ Forall (fun e => forall l n l', e <> ESlice l n l') (events r)
  /\ (exists buf',
        heap (world r) !! 0 = Some buf'
        /\ buf' ++ Py.chars (sudo_prompt overlapping_env) = buf ++ [Py.LF]
        /\ length buf' + n = length (buf ++ [Py.LF]))
  /\ ((Py.truthy cached = true /\ reprompt st = false
       /\ events r =
            events (display overlapping_env default_output "recv" st Py.LF w)
              ++ [EExtend 0 Py.LF; EGetPassword cached; EDelTail 0 n;
                  ESendall (Py.the_str cached +:+ Py.str1 Py.LF)]
       /\ cache (world r) = cache w)
      \/ ((Py.truthy cached = false \/ reprompt st = true)
          /\ exists notice,
               Forall is_flush notice
               /\ events r =
                    events (display overlapping_env default_output "recv" st Py.LF w)
                      ++ [EExtend 0 Py.LF; EGetPassword cached; EDelTail 0 n]
                      ++ notice
                      ++ [EPromptForPassword (opipe "recv") pw; ESetPassword pw;
                          ESendall (pw +:+ Py.str1 Py.LF)]
               /\ cache (world r)
                  = cache_set (host_string overlapping_env) pw (cache w))).
Proof.
  apply (prompt_match_shadows_retry_match overlapping_env default_output
           types_secret "recv" fresh Py.LF
           (mkWorld [Py.chars "Sorry, try again."] None)
           0 (Py.chars "Sorry, try again.")); reflexivity.
Defined.

(** The run of the witness above: the buffer [Sorry, try again.] and a
    line feed matches the prompt [again.] and a line feed as well as the
    retry string; the seven bytes of the prompt are taken off, the
    operator is asked, and what is typed is sent. *)
Example double_match_strips_the_prompt :
  let w := mkWorld [Py.chars "Sorry, try again."] None in
  let r := output_step overlapping_env default_output types_secret "recv" fresh Py.LF w in
  heap (world r) = [Py.chars "Sorry, try "]
  /\ val r = {| capture := Some 0; reprompt := false;
                initial_prefix_printed := true |}
  /\ events r =
       [EFlush Stdout "[host] out: "; EFlush Stdout (Py.str1 Py.LF);
        EFlush Stdout "[host] out: "; EExtend 0 Py.LF; EGetPassword None;
        EDelTail 0 7; EPromptForPassword Stdout "secret"; ESetPassword "secret";
        ESendall ("secret" +:+ Py.str1 Py.LF)].
Proof. vm_compute. done. Qed.


(** The run of the witness above: [a] and [b] are forwarded and echoed,
    [c] and [d] are left in the input source. *)
Example input_left_undrained :
  let r := input_loop default_env false false {| pending := []; closed := false |}
             [typing "ab"; typing "c"; finishing "d"; typing "e"] in
  sent_bytes (in_events r) = Py.chars "ab"
  /\ pending (in_stdin r) = Py.chars "cd"
  /\ in_events r =
       [EExitStatusReady false; EHaveChar true; ERead "a"; ESendall "a";
        EFlush Stdout "a";
        EExitStatusReady false; EHaveChar true; ERead "b"; ESendall "b";
        EFlush Stdout "b";
        EExitStatusReady true].
Proof. vm_compute. done. Qed.


(** * More on the output relay *)

Lemma flushed_app p evs evs' :
  flushed p (evs ++ evs') = flushed p evs ++ flushed p evs'.
Proof. unfold flushed. by rewrite flat_map_app. Qed.

Lemma skeleton_app evs evs' :
  skeleton (evs ++ evs') = skeleton evs ++ skeleton evs'.
Proof. unfold skeleton. by rewrite List.filter_app. Qed.

Lemma count_app f evs evs' : count f (evs ++ evs') = count f evs + count f evs'.
Proof. unfold count. by rewrite List.filter_app, length_app. Qed.

Lemma skeleton_flushes evs : Forall is_flush evs -> skeleton evs = [].
Proof.
  induction 1 as [|e evs He _ IH]; [done|].
  destruct e; first [done | exact IH].
Qed.

Lemma flushed_skeleton_free p evs :
  Forall (fun e => ~ is_flush e) evs -> flushed p evs = [].
Proof.
  induction 1 as [|e evs He _ IH]; [done|].
  destruct e; first [exact IH | by destruct He].
Qed.

(** Counting events that are not writes to a pipe can be done on the
    skeleton. *)
Lemma count_skeleton f evs :
  (forall e, f e = true -> is_flushb e = false) ->
  count f evs = count f (skeleton evs).
Proof.
  intros Hf. unfold count, skeleton. induction evs as [|e evs IH]; [done|].
  cbn [List.filter]. destruct (f e) eqn:E.
  - rewrite (Hf e E). cbn. rewrite E. cbn. by rewrite IH.
  - destruct (is_flushb e); cbn; rewrite ?E; exact IH.
Qed.

Section OutputMore.

Variable env : Env.
Variable output : Output.
Variable operator : nat -> string.
Variable which : string.

Abbreviation display := (display env output which).
Abbreviation resolve := (resolve env output operator which).
Abbreviation output_step := (output_step env output operator which).
Abbreviation output_bytes := (output_bytes env output operator which).
Abbreviation output_loop := (output_loop env output operator which).
Abbreviation opipe := (opipe which).
Abbreviation printing := (printing output which).
Abbreviation _prefix := (_prefix env which).
Abbreviation prompt := (prompt env).
Abbreviation try_again := (try_again env).

Lemma pipe_eqb_eq p q : pipe_eqb p q = true <-> p = q.
Proof. by destruct p, q. Qed.

(** The events of a step that are not writes to a pipe. *)
Lemma output_step_skeleton st b w c buf :
  capture st = Some c -> heap w !! c = Some buf ->
  let r := output_step st b w in
  let cached := cache_get (host_string env) (cache w) in
  let n := Py.len (sudo_prompt env) in
  let pw := operator (asked w) in
  (prompt (buf ++ [b]) = false /\ try_again (buf ++ [b]) = false
   /\ skeleton (events r) = [EExtend c b]
   /\ world r = world (extend c b w))
  \/ (prompt (buf ++ [b]) = false /\ try_again (buf ++ [b]) = true
      /\ skeleton (events r)
         = [EExtend c b; ESlice c (Py.len (again_prompt env)) (length (heap w))]
      /\ world r = world (slice c (Py.len (again_prompt env))
                             (world (extend c b w))))
  \/ (prompt (buf ++ [b]) = true
      /\ Py.truthy cached = true /\ reprompt st = false
      /\ skeleton (events r)
         = [EExtend c b; EGetPassword cached; EDelTail c n;
            ESendall (Py.the_str cached +:+ Py.str1 Py.LF)]
      /\ world r = world (del_tail c n (world (extend c b w))))
  \/ (prompt (buf ++ [b]) = true
      /\ (Py.truthy cached = false \/ reprompt st = true)
      /\ skeleton (events r)
         = [EExtend c b; EGetPassword cached; EDelTail c n;
            EPromptForPassword opipe pw; ESetPassword pw;
            ESendall (pw +:+ Py.str1 Py.LF)]
      /\ heap (world r) = heap (world (del_tail c n (world (extend c b w))))
      /\ asked (world r) = S (asked w)).
Proof.
  intros Hc Hb. cbv zeta.
  rewrite (output_step_eq env output operator which _ _ _ _ _ Hc Hb). cbv zeta.
  pose proof (skeleton_flushes _ (display_events env output which st b w)) as Hd.
  destruct (Io.prompt env (buf ++ [b])) eqn:Hp;
    [|destruct (Io.try_again env (buf ++ [b])) eqn:Hr].
  - right. right.
    destruct (Py.truthy (cache_get (host_string env) (cache w))) eqn:Ht;
      [destruct (reprompt st) eqn:Hre|].
    + right. split; [done|]. split; [by right|].
      destruct (resolve_ask env output operator which st
                  (cache_get (host_string env) (cache w))
                  (world (del_tail c (Py.len (sudo_prompt env))
                            (world (extend c b w)))))
        as (notice & Hn & ->); [by right|].
      cbn [val world events fst snd asked heap].
      rewrite !skeleton_app, Hd, (skeleton_flushes _ Hn). done.
    + left. rewrite resolve_cached by done.
      cbn [val world events fst snd]. by rewrite !skeleton_app, Hd.
    + right. split; [done|]. split; [by left|].
      destruct (resolve_ask env output operator which st
                  (cache_get (host_string env) (cache w))
                  (world (del_tail c (Py.len (sudo_prompt env))
                            (world (extend c b w)))))
        as (notice & Hn & ->); [by left|].
      cbn [val world events fst snd asked heap].
      rewrite !skeleton_app, Hd, (skeleton_flushes _ Hn). done.
  - right. left. cbn [events world]. by rewrite skeleton_app, Hd.
  - left. cbn [events world]. by rewrite skeleton_app, Hd.
Qed.

Lemma resolve_flushed_printing st cached w p :
  printing = true -> flushed p (events (resolve st cached w)) = [].
Proof.
  intros Hpr. unfold Io.resolve, when. rewrite Hpr.
  by destruct (negb (Py.truthy cached) || reprompt st).
Qed.

Lemma display_flushed_printing st b w p :
  printing = true ->
  val (display st b w) = true
  /\ flushed p (events (display st b w))
     = if pipe_eqb p opipe
       then (if initial_prefix_printed st then [] else Py.chars _prefix)
              ++ shown _prefix b
       else [].
Proof.
  intros Hpr. unfold Io.display, when, shown. rewrite Hpr.
  destruct (initial_prefix_printed st),
    (bool_decide (b = Py.LF) || bool_decide (b = Py.CR)), (pipe_eqb p opipe) eqn:E;
    cbn; rewrite ?E; cbn; rewrite ?app_nil_r; done.
Qed.

Lemma output_step_flushed_printing st b w c buf p :
  printing = true -> capture st = Some c -> heap w !! c = Some buf ->
  let r := output_step st b w in
  initial_prefix_printed (val r) = true
  /\ flushed p (events r)
     = if pipe_eqb p opipe
       then (if initial_prefix_printed st then [] else Py.chars _prefix)
              ++ shown _prefix b
       else [].
Proof.
  intros Hpr Hc Hb. cbv zeta.
  rewrite (output_step_eq env output operator which _ _ _ _ _ Hc Hb). cbv zeta.
  destruct (display_flushed_printing st b w p Hpr) as [Hv Hf].
  destruct (Io.prompt env (buf ++ [b])); [|destruct (Io.try_again env (buf ++ [b]))];
    cbn [val world events initial_prefix_printed]; (split; [done|]);
    rewrite !flushed_app, ?resolve_flushed_printing, Hf by done;
    cbn; by rewrite app_nil_r.
Qed.

Lemma output_bytes_flushed_printing data : forall st w c buf p,
  printing = true -> capture st = Some c -> heap w !! c = Some buf ->
  flushed p (events (output_bytes st data w))
  = if pipe_eqb p opipe
    then (if initial_prefix_printed st then []
          else match data with [] => [] | _ :: _ => Py.chars _prefix end)
           ++ flat_map (shown _prefix) data
    else [].
Proof.
  induction data as [|b data IH]; intros st w c buf p Hpr Hc Hb.
  - cbn. by destruct (pipe_eqb p opipe), (initial_prefix_printed st).
  - rewrite output_bytes_cons. cbv zeta. cbn [events].
    change (ERecv which (Py.str1 b) :: ?l) with ([ERecv which (Py.str1 b)] ++ l).
    rewrite !flushed_app.
    destruct (output_step_flushed_printing st b w c buf p Hpr Hc Hb) as [Hipp ->].
    destruct (output_step_valid env output operator which st b w c buf Hc Hb)
      as (c' & buf' & Hc' & Hb').
    rewrite (IH _ _ c' buf' p Hpr Hc' Hb'), Hipp.
    destruct (pipe_eqb p opipe); [|done].
    cbn [flushed flat_map app]. by rewrite <- !(assoc_L (++)).
Qed.

(** X3. While output of the stream is printed, what a capturing relay
    writes to the pipe of its stream is the line prefix, then the bytes
    received, each line feed and each carriage return being followed by
    the prefix again; nothing is written when no byte is received, nothing
    goes to the other pipe, and prompts and retries change none of this. *)
Theorem displayed_text c buf data w p :
  printing = true -> heap w !! c = Some buf ->
  let r := output_loop (Some c) data w in
  flushed p (events r)
  = if pipe_eqb p opipe
    then match data with
         | [] => []
         | _ :: _ => Py.chars _prefix ++ flat_map (shown _prefix) data
         end
    else [].
Proof.
  intros Hpr Hb. cbv zeta. rewrite output_loop_eq. cbv zeta. cbn [events].
  rewrite flushed_app.
  rewrite (output_bytes_flushed_printing data
             {| capture := Some c; reprompt := false;
                initial_prefix_printed := false |} w c buf p Hpr eq_refl Hb).
  cbn [initial_prefix_printed flushed flat_map]. rewrite app_nil_r.
  by destruct (pipe_eqb p opipe), data.
Qed.

Ltac no_flush :=
  intros; repeat (apply Forall_cons; split; [by intros []|]); by apply Forall_nil.

Lemma display_hidden st b w :
  printing = false -> display st b w = mkRes (initial_prefix_printed st) w [].
Proof. intros Hpr. unfold Io.display. by rewrite Hpr. Qed.

Lemma output_step_hidden st b w c buf :
  printing = false -> capture st = Some c -> heap w !! c = Some buf ->
  count is_ask (events (output_step st b w)) = 0 ->
  Forall (fun e => ~ is_flush e) (events (output_step st b w)).
Proof.
  intros Hpr Hc Hb.
  rewrite (output_step_eq env output operator which _ _ _ _ _ Hc Hb). cbv zeta.
  rewrite display_hidden by done. cbn [events val app].
  destruct (Io.prompt env (buf ++ [b])); [|destruct (Io.try_again env (buf ++ [b]))];
    cbn [events]; [|no_flush..].
  destruct (Py.truthy (cache_get (host_string env) (cache w))) eqn:Ht;
    [destruct (reprompt st) eqn:Hre|].
  2: { rewrite resolve_cached by done. cbn [events app]. no_flush. }
  all: destruct (resolve_ask env output operator which st
                   (cache_get (host_string env) (cache w))
                   (world (del_tail c (Py.len (sudo_prompt env))
                             (world (extend c b w)))))
         as (notice & Hn & ->); [auto|];
       cbn [events]; change (?a :: ?b :: ?c :: ?l) with ([a; b; c] ++ l);
       rewrite !count_app; cbn; lia.
Qed.

Lemma output_bytes_hidden data : forall st w c buf,
  printing = false -> capture st = Some c -> heap w !! c = Some buf ->
  count is_ask (events (output_bytes st data w)) = 0 ->
  Forall (fun e => ~ is_flush e) (events (output_bytes st data w)).
Proof.
  induction data as [|b data IH]; intros st w c buf Hpr Hc Hb; [by constructor|].
  rewrite output_bytes_cons. cbv zeta. cbn [events].
  change (ERecv which (Py.str1 b) :: ?l) with ([ERecv which (Py.str1 b)] ++ l).
  rewrite !count_app. intros Hcount.
  destruct (output_step_valid env output operator which st b w c buf Hc Hb)
    as (c' & buf' & Hc' & Hb').
  repeat (apply Forall_app; split).
  - no_flush.
  - apply (output_step_hidden st b w c buf Hpr Hc Hb). lia.
  - apply (IH _ _ c' buf' Hpr Hc' Hb'). lia.
Qed.

(** X4. While output of the stream is hidden, a capturing relay writes to
    the pipes only when it asks the operator for a password: a run in which
    the operator is never asked writes nothing at all. *)
Theorem hidden_output_is_silent c buf data w :
  printing = false -> heap w !! c = Some buf ->
  let r := output_loop (Some c) data w in
  count is_ask (events r) = 0 ->
  Forall (fun e => ~ is_flush e) (events r).
Proof.
  intros Hpr Hb. cbv zeta. rewrite output_loop_eq. cbv zeta. cbn [events].
  rewrite count_app. intros Hcount. apply Forall_app. split.
  - apply (output_bytes_hidden data
             {| capture := Some c; reprompt := false;
                initial_prefix_printed := false |} w c buf Hpr eq_refl Hb). lia.
  - no_flush.
Qed.

Lemma output_bytes_counts data : forall st w c buf,
  capture st = Some c -> heap w !! c = Some buf ->
  let r := output_bytes st data w in
  count is_sendall (events r) = count is_get_password (events r)
  /\ count is_get_password (events r) = count is_del_tail (events r)
  /\ count is_ask (events r) = count is_set_password (events r)
  /\ count is_ask (events r) <= count is_sendall (events r)
  /\ asked (world r) = asked w + count is_ask (events r).
Proof.
  induction data as [|b data IH]; intros st w c buf Hc Hb.
  - cbn. split_and!; lia.
  - rewrite output_bytes_cons. cbv zeta. cbn [events world].
    change (ERecv which (Py.str1 b) :: ?l) with ([ERecv which (Py.str1 b)] ++ l).
    rewrite !count_app.
    destruct (output_step_valid env output operator which st b w c buf Hc Hb)
      as (c' & buf' & Hc' & Hb').
    destruct (IH _ _ c' buf' Hc' Hb') as (I1 & I2 & I3 & I4 & I5).
    rewrite I5.
    rewrite (count_skeleton is_sendall (events (output_step st b w))),
      (count_skeleton is_get_password (events (output_step st b w))),
      (count_skeleton is_del_tail (events (output_step st b w))),
      (count_skeleton is_ask (events (output_step st b w))),
      (count_skeleton is_set_password (events (output_step st b w)))
      by (by intros []).
    assert (forall w', world (output_step st b w) = w' -> asked w' = asked w ->
                       asked (world (output_step st b w)) = asked w) as Hframe.
    { by intros w' ->. }
    destruct (output_step_skeleton st b w c buf Hc Hb)
      as [(_ & _ & -> & Hw) | [(_ & _ & -> & Hw) | [(_ & _ & _ & -> & Hw)
          | (_ & _ & -> & _ & Hw)]]];
      [apply Hframe in Hw; [|done]..|]; rewrite Hw; cbn; split_and!; lia.
Qed.

(** X5. In every run of a capturing relay there is one write to the
    channel for each call of [get_password] and for each truncation of the
    buffer, every password typed by the operator is stored with
    [set_password], and the operator is asked at most once for each
    password sent. *)
Theorem one_password_per_prompt_match c buf data w :
  heap w !! c = Some buf ->
  let r := output_loop (Some c) data w in
  count is_sendall (events r) = count is_get_password (events r)
  /\ count is_get_password (events r) = count is_del_tail (events r)
  /\ count is_ask (events r) = count is_set_password (events r)
  /\ count is_ask (events r) <= count is_sendall (events r)
  /\ asked (world r) = asked w + count is_ask (events r).
Proof.
  intros Hb. cbv zeta. rewrite output_loop_eq. cbv zeta. cbn [events world].
  rewrite !count_app. cbn.
  destruct (output_bytes_counts data
              {| capture := Some c; reprompt := false;
                 initial_prefix_printed := false |} w c buf eq_refl Hb)
    as (I1 & I2 & I3 & I4 & I5).
  split_and!; lia.
Qed.

(** A step touches one list object, the one the capture variable names,
    and makes at most one new one. *)
Lemma output_step_frame st b w c buf :
  capture st = Some c -> heap w !! c = Some buf ->
  let r := output_step st b w in
  length (heap w) <= length (heap (world r))
  /\ (forall l, l <> c -> l < length (heap w) -> heap (world r) !! l = heap w !! l)
  /\ (capture (val r) = Some c \/ capture (val r) = Some (length (heap w))).
Proof.
  intros Hc Hb. cbv zeta.
  rewrite (output_step_eq env output operator which _ _ _ _ _ Hc Hb). cbv zeta.
  destruct (Io.prompt env (buf ++ [b])); [|destruct (Io.try_again env (buf ++ [b]))];
    cbn [val world capture]; rewrite ?resolve_heap; cbn; rewrite ?length_app, ?length_alter;
    (split_and!; [lia| |auto]); intros l Hl Hlt.
  - by rewrite !list_lookup_alter_ne.
  - rewrite lookup_app_l by (by rewrite length_alter).
    by rewrite list_lookup_alter_ne.
  - by rewrite list_lookup_alter_ne.
Qed.

Lemma output_bytes_frozen bs : forall st w c c' X,
  capture st = Some c' -> c < c' -> c' < length (heap w) ->
  heap w !! c = Some X ->
  let r := output_bytes st bs w in
  heap (world r) !! c = Some X /\ capture (val r) <> Some c.
Proof.
  induction bs as [|b bs IH]; intros st w c c' X Hc Hlt Hlen HX.
  - cbn. split; [done|]. rewrite Hc. intros [=]. lia.
  - rewrite output_bytes_cons. cbv zeta. cbn [val world].
    destruct (lookup_lt_is_Some_2 (heap w) c' Hlen) as [buf' Hb'].
    destruct (output_step_frame st b w c' buf' Hc Hb') as (Hgrow & Hsame & Hcap).
    destruct (output_step_valid env output operator which st b w c' buf' Hc Hb')
      as (c2 & buf2 & Hc2 & Hb2).
    apply (IH _ _ c c2 X Hc2).
    + rewrite Hc2 in Hcap. destruct Hcap as [[= ->] | [= ->]]; lia.
    + by apply lookup_lt_Some in Hb2.
    + rewrite Hsame; [done|lia|lia].
Qed.

(** X6. After a byte handled as a retry match, the list given by the
    caller is never changed again, whatever is received next: it keeps the
    buffer as it was at the retry match, line terminator included, and the
    capture variable never names it again. *)
Theorem caller_list_frozen_after_retry st b0 bs w c buf :
  capture st = Some c -> heap w !! c = Some buf ->
  prompt (buf ++ [b0]) = false -> try_again (buf ++ [b0]) = true ->
  let r1 := output_step st b0 w in
  let r := output_bytes (val r1) bs (world r1) in
  heap (world r) !! c = Some (buf ++ [b0]) /\ capture (val r) <> Some c.
Proof.
  intros Hc Hb Hp Hr. cbv zeta.
  destruct (output_step_retry env output operator which st b0 w c buf Hc Hb Hp Hr)
    as (Hc1 & _ & Hold & Hnew).
  apply (output_bytes_frozen bs _ _ c (length (heap w)) _ Hc1).
  - by apply lookup_lt_Some in Hb.
  - by apply lookup_lt_Some in Hnew.
  - exact Hold.
Qed.

(** X7. When the buffer that gives a retry match begins with the retry
    string, the new list the capture variable names holds the retry
    string and nothing else. *)
Theorem retry_on_leading_retry_string st b w c buf :
  capture st = Some c -> heap w !! c = Some buf ->
  prompt (buf ++ [b]) = false -> try_again (buf ++ [b]) = true ->
  Py.chars (again_prompt env) `prefix_of` (buf ++ [b]) ->
  let r := output_step st b w in
  exists c',
    capture (val r) = Some c' /\ c' <> c
    /\ heap (world r) !! c' = Some (Py.chars (again_prompt env)).
Proof.
  intros Hc Hb Hp Hr [k Hk]. cbv zeta.
  destruct (output_step_retry env output operator which st b w c buf Hc Hb Hp Hr)
    as (Hc1 & _ & _ & Hnew).
  exists (length (heap w)). split_and!; [done| |].
  - apply lookup_lt_Some in Hb. lia.
  - rewrite Hnew, Hk. unfold Py.slice_first.
    by rewrite <- length_chars, take_app_length.
Qed.

End OutputMore.

(** * More on [_endswith] *)

(** X1. For a non-empty string, [_endswith] holds exactly when the list
    ends with the characters of the string. *)
Theorem endswith_iff_suffix (l : list ascii) (s : string) :
  s <> "" -> (_endswith l s = true <-> Py.chars s `suffix_of` l).
Proof.
  intros Hs. split.
  - apply _endswith_suffix.
  - intros H. apply suffix__endswith; auto.
Qed.

(** X2. For the empty string, [_endswith] holds on the empty list only:
    [char_list[-0:]] is the whole list. *)
Theorem endswith_empty_substring (l : list ascii) :
  _endswith l "" = true <-> l = [].
Proof.
  unfold _endswith. cbn. rewrite bool_decide_eq_true. done.
Qed.

Lemma endswith_iff_suffix_witness :
  _endswith (Py.chars "a, b") ", b" = true
  <-> Py.chars ", b" `suffix_of` Py.chars "a, b".
Proof. apply (endswith_iff_suffix (Py.chars "a, b") ", b"). discriminate. Defined.

(** * More on the input relay *)

Section InputMore.

Variable env : Env.
Variable win32 : bool.

Abbreviation input_body := (input_body env win32).
Abbreviation input_loop := (input_loop env win32).

(** X8. The loop ends on a report of completion only: against polls none
    of which reports completion it is still running, also when the input
    source has reached its end. *)
Theorem input_runs_until_finished using_pty ticks : forall s,
  Forall (fun t => finished t = false) ticks ->
  in_status (input_loop using_pty s ticks) = Running.
Proof.
  induction ticks as [|t ticks IH]; intros s Hall; [done|].
  apply Forall_cons in Hall as [Ht Hall].
  rewrite (input_loop_unfinished env win32 _ _ _ _ Ht). cbv zeta.
  cbn [in_status]. by apply IH.
Qed.

(** X9. At most one byte is written to the channel for each poll. *)
Theorem one_byte_per_poll using_pty ticks : forall s,
  length (sent_bytes (in_events (input_loop using_pty s ticks))) <= length ticks.
Proof.
  induction ticks as [|t ticks IH]; intros s; [done|].
  destruct (finished t) eqn:Ht.
  - rewrite (input_loop_finished env win32 _ _ _ _ Ht). cbn. lia.
  - rewrite (input_loop_unfinished env win32 _ _ _ _ Ht). cbv zeta.
    cbn [in_events].
    change (EExitStatusReady false :: ?l) with ([EExitStatusReady false] ++ l).
    rewrite !sent_bytes_app, !length_app.
    destruct (input_body_bytes env win32 using_pty (feed t s)) as (-> & _).
    specialize (IH (fst (input_body using_pty (feed t s)))).
    rewrite length_take. cbn [sent_bytes flat_map length app].
    pose proof (Nat.le_min_l 1 (length (pending (feed t s)))). lia.
Qed.



End InputMore.

Lemma input_runs_until_finished_witness :
  in_status (input_loop default_env false false {| pending := []; closed := true |}
               [typing "a"; typing ""]) = Running.
Proof.
  apply (input_runs_until_finished default_env false false
           [typing "a"; typing ""] {| pending := []; closed := true |}).
  repeat constructor.
Defined.


(** * The dictionaries of [fabric.state] *)

Import State.

Lemma AttributeDict_init (d : gmap string value) : AttributeDict.__init__ d = d.
Proof. unfold AttributeDict.__init__. apply (list_to_map_to_list d). Qed.

(** X11. After [d.key = v], the item [d[key]] is the value assigned, for
    every key, except that a plain [dict] comes back as an [AttributeDict]
    with the same items, which also takes its place in the dictionary. The
    attribute [d.key] gives the same when the normal lookup does not find
    [key]; when it does ([_data], [keys], [copy] and the other names of the
    class and of its bases) the read gives that attribute, not the value
    assigned, and leaves the dictionary alone. *)
Theorem attribute_read_after_assign (inherited : string -> bool) (key : string)
    (v : value) (d : gmap string value) :
  let v' := match v with VDict items => VAttrDict items | _ => v end in
  let d1 := (AttributeDict.setattr key v d).2 in
  d1 = <[key := v]> d
  /\ AttributeDict.__getitem__ key d1 = (inr v', <[key := v']> d)
  /\ AttributeDict.getattr inherited key d1
     = if bool_decide (key ∈ AttributeDict.own_names) || inherited key
       then (AttributeDict.Found key, <[key := v]> d)
       else (AttributeDict.Fallback (inr v'), <[key := v']> d).
Proof.
  cbv zeta.
  assert (AttributeDict.__getitem__ key (<[key := v]> d)
          = (inr match v with VDict items => VAttrDict items | _ => v end,
             <[key := match v with VDict items => VAttrDict items | _ => v end]> d))
    as Hitem.
  { unfold AttributeDict.__getitem__. rewrite lookup_insert_eq.
    destruct v; rewrite ?AttributeDict_init, ?insert_insert_eq; done. }
  unfold AttributeDict.setattr, AttributeDict.__setattr__,
    AttributeDict.__setitem__. cbn [snd]. split_and!; [done|exact Hitem|].
  unfold AttributeDict.getattr, AttributeDict.__getattr__.
  destruct (bool_decide (key ∈ AttributeDict.own_names) || inherited key); [done|].
  by rewrite Hitem.
Qed.

(** X12. A successful read may replace the value read, and changes nothing
    else: the same read gives the same value again and then leaves the
    dictionary as it is, the keys are the same, and so is every other
    item. *)
Theorem attribute_read_is_idempotent (key : string) (v : value)
    (d d' : gmap string value) :
  AttributeDict.__getitem__ key d = (inr v, d') ->
  AttributeDict.__getitem__ key d' = (inr v, d')
  /\ AttributeDict.keys d' = AttributeDict.keys d
  /\ (forall k, k <> key -> d' !! k = d !! k).
Proof.
  unfold AttributeDict.__getitem__, AttributeDict.keys.
  destruct (d !! key) as [u|] eqn:E; [|done].
  destruct u; intros [= <- <-]; rewrite ?E; try done.
  rewrite lookup_insert_eq. split_and!; [done| |].
  - apply dom_insert_lookup_L. by eexists.
  - intros k Hk. by rewrite lookup_insert_ne.
Qed.

(** X13. For a key that is not in the dictionary, [d[key]] and
    [del d[key]] raise [KeyError], and the attribute [d.key] raises
    [AttributeError] when the normal lookup does not find [key]; a name of
    the class or of its bases is found by the normal lookup all the same.
    The dictionary stays as it is. *)
Theorem attribute_missing_key (inherited : string -> bool) (key : string)
    (d : gmap string value) :
  d !! key = None ->
  AttributeDict.__getitem__ key d = (inl (KeyError key), d)
  /\ AttributeDict.__delitem__ key d = (inl (KeyError key), d)
  /\ AttributeDict.getattr inherited key d
     = if bool_decide (key ∈ AttributeDict.own_names) || inherited key
       then (AttributeDict.Found key, d)
       else (AttributeDict.Fallback (inl (AttributeError key)), d).
Proof.
  intros H. unfold AttributeDict.getattr, AttributeDict.__getattr__,
    AttributeDict.__getitem__, AttributeDict.__delitem__. rewrite H.
  by destruct (bool_decide (key ∈ AttributeDict.own_names) || inherited key).
Qed.

(** ** [_AliasDict] *)

Section Aliases.

Variable al : gmap string (list string).

Lemma expand_aliases_nil depth :
  _AliasDict.expand_aliases (S depth) (Some al) [] = inr [].
Proof. reflexivity. Qed.

Lemma expand_aliases_cons depth key ks :
  _AliasDict.expand_aliases (S depth) (Some al) (key :: ks)
  = match al !! key with
    | Some aliased =>
        match _AliasDict.expand_aliases depth (Some al) aliased with
        | inl e => inl e
        | inr ret =>
            match _AliasDict.expand_aliases (S depth) (Some al) ks with
            | inl e => inl e
            | inr ret' => inr (ret ++ ret')
            end
        end
    | None =>
        match _AliasDict.expand_aliases (S depth) (Some al) ks with
        | inl e => inl e
        | inr ret' => inr (key :: ret')
        end
    end.
Proof. reflexivity. Qed.

Lemma setitem_alias depth key aliased v d :
  al !! key = Some aliased ->
  _AliasDict.__setitem__ (S depth) (Some al) key v d
  = _AliasDict.update depth (Some al) (map (fun k => (k, v)) aliased) d.
Proof.
  intros H. cbn [_AliasDict.__setitem__]. rewrite H.
  clear H. revert d. induction aliased as [|k ks IH]; intros d; [done|].
  cbn [map _AliasDict.update].
  destruct (_AliasDict.__setitem__ depth (Some al) k v d) as [[e|[]] d']; [done|].
  apply IH.
Qed.

Lemma setitem_plain depth key v d :
  al !! key = None ->
  _AliasDict.__setitem__ (S depth) (Some al) key v d = (inr tt, <[key := v]> d).
Proof. intros H. cbn [_AliasDict.__setitem__]. by rewrite H. Qed.

Lemma set_keys_lookup ks v : forall d k,
  set_keys ks v d !! k = if decide (k ∈ ks) then Some v else d !! k.
Proof.
  unfold set_keys. induction ks as [|k' ks IH]; intros d k; cbn [foldl].
  - rewrite decide_False; [done|]. apply not_elem_of_nil.
  - rewrite IH. destruct (decide (k ∈ ks)) as [Hin|Hin].
    + rewrite decide_True; [done|]. by apply elem_of_cons; right.
    + destruct (decide (k = k')) as [->|Hne].
      * rewrite lookup_insert_eq, decide_True; [done|]. by apply elem_of_cons; left.
      * rewrite lookup_insert_ne by done. rewrite decide_False; [done|].
        rewrite elem_of_cons. by intros [?|?].
Qed.

Lemma expand_aliases_no_alias depth : forall keys ret,
  _AliasDict.expand_aliases depth (Some al) keys = inr ret ->
  Forall (fun k => al !! k = None) ret.
Proof.
  induction depth as [|depth IHd]; intros keys ret; [done|].
  revert ret. induction keys as [|key ks IHk]; intros ret.
  - intros [= <-]. constructor.
  - rewrite expand_aliases_cons. destruct (al !! key) as [aliased|] eqn:E.
    + destruct (_AliasDict.expand_aliases depth (Some al) aliased) as [|r1] eqn:E1;
        [done|].
      destruct (_AliasDict.expand_aliases (S depth) (Some al) ks) as [|r2] eqn:E2;
        [done|].
      intros [= <-]. apply Forall_app. split; [by eapply IHd|by apply IHk].
    + destruct (_AliasDict.expand_aliases (S depth) (Some al) ks) as [|r2] eqn:E2;
        [done|].
      intros [= <-]. constructor; [done|by apply IHk].
Qed.

(** X14. On an alias table without cycles, [expand_aliases] returns as
    soon as the recursion may go deeper than the rank of every key given,
    and no alias is left in the list it returns. *)
Theorem expand_aliases_returns (rank : string -> nat) depth : forall keys,
  ranked al rank -> 0 < depth -> Forall (fun k => rank k < depth) keys ->
  exists ret,
    _AliasDict.expand_aliases depth (Some al) keys = inr ret
    /\ Forall (fun k => al !! k = None) ret.
Proof.
  intros keys Hrank. revert keys.
  induction depth as [|depth IHd]; intros keys Hpos Hkeys; [lia|].
  assert (exists ret, _AliasDict.expand_aliases (S depth) (Some al) keys = inr ret)
    as [ret Hret]; [|by eauto using expand_aliases_no_alias].
  induction keys as [|key ks IHk]; [by eexists|].
  apply Forall_cons in Hkeys as [Hkey Hks].
  destruct (IHk Hks) as [r2 E2].
  rewrite expand_aliases_cons, E2. destruct (al !! key) as [aliased|] eqn:E.
  - destruct (Hrank key aliased E) as [H0 Hlt].
    destruct (IHd aliased) as (r1 & -> & _); [lia| |by eexists].
    eapply Forall_impl; [exact Hlt|]. intros k. cbn. lia.
  - by eexists.
Qed.

Lemma update_expand depth : forall keys ret v d,
  _AliasDict.expand_aliases depth (Some al) keys = inr ret ->
  _AliasDict.update depth (Some al) (map (fun k => (k, v)) keys) d
  = (inr tt, set_keys ret v d).
Proof.
  induction depth as [|depth IHd]; intros keys ret v d; [done|].
  revert ret d. induction keys as [|key ks IHk]; intros ret d.
  - by intros [= <-].
  - rewrite expand_aliases_cons. cbn [map _AliasDict.update].
    destruct (al !! key) as [aliased|] eqn:E.
    + destruct (_AliasDict.expand_aliases depth (Some al) aliased) as [|r1] eqn:E1;
        [done|].
      destruct (_AliasDict.expand_aliases (S depth) (Some al) ks) as [|r2] eqn:E2;
        [done|].
      intros [= <-]. rewrite (setitem_alias _ _ _ _ _ E), (IHd _ _ v d E1).
      rewrite (IHk _ _ eq_refl). unfold set_keys. by rewrite foldl_app.
    + destruct (_AliasDict.expand_aliases (S depth) (Some al) ks) as [|r2] eqn:E2;
        [done|].
      intros [= <-]. rewrite (setitem_plain _ _ _ _ E).
      by rewrite (IHk _ _ eq_refl).
Qed.

(** X15. Assigning to a key does what assigning to each key of
    [expand_aliases([key])] does: those keys read as the value assigned,
    every other item is as before, and none of the keys set is an alias. *)
Theorem assign_through_aliases depth key ret v d :
  _AliasDict.expand_aliases depth (Some al) [key] = inr ret ->
  exists d',
    _AliasDict.__setitem__ depth (Some al) key v d = (inr tt, d')
    /\ (forall k, k ∈ ret -> d' !! k = Some v)
    /\ (forall k, k ∉ ret -> d' !! k = d !! k)
    /\ Forall (fun k => al !! k = None) ret.
Proof.
  intros Hret. pose proof (update_expand depth [key] ret v d Hret) as Hup.
  cbn [map _AliasDict.update] in Hup.
  destruct (_AliasDict.__setitem__ depth (Some al) key v d) as [[e|[]] d'];
    [done|]. injection Hup as ->.
  exists (set_keys ret v d). split_and!; [done| | |].
  - intros k Hk. by rewrite set_keys_lookup, decide_True.
  - intros k Hk. by rewrite set_keys_lookup, decide_False.
  - by eapply expand_aliases_no_alias.
Qed.

(** X16. [expand_aliases] works key by key and does not remove
    duplicates: the expansion of two lists put together is the two
    expansions put together. *)
Theorem expand_aliases_app depth keys keys' ret ret' :
  _AliasDict.expand_aliases depth (Some al) keys = inr ret ->
  _AliasDict.expand_aliases depth (Some al) keys' = inr ret' ->
  _AliasDict.expand_aliases depth (Some al) (keys ++ keys') = inr (ret ++ ret').
Proof.
  destruct depth as [|depth]; [done|]. intros H H'. revert ret H.
  induction keys as [|key ks IH]; intros ret.
  - by intros [= <-].
  - cbn [app]. rewrite !expand_aliases_cons.
    destruct (al !! key) as [aliased|].
    + destruct (_AliasDict.expand_aliases depth (Some al) aliased) as [|r1]; [done|].
      destruct (_AliasDict.expand_aliases (S depth) (Some al) ks) as [|r2]; [done|].
      intros [= <-]. rewrite (IH _ eq_refl). by rewrite <- (assoc_L (++)).
    + destruct (_AliasDict.expand_aliases (S depth) (Some al) ks) as [|r2]; [done|].
      intros [= <-]. by rewrite (IH _ eq_refl).
Qed.

Lemma expand_aliases_error depth : forall keys e,
  _AliasDict.expand_aliases depth (Some al) keys = inl e -> e = RuntimeError.
Proof.
  induction depth as [|depth IHd]; intros keys e; [by intros [= <-]|].
  induction keys as [|key ks IHk]; [done|].
  rewrite expand_aliases_cons. destruct (al !! key) as [aliased|].
  - destruct (_AliasDict.expand_aliases depth (Some al) aliased) as [e1|r1] eqn:E1.
    + intros [= <-]. by eapply IHd.
    + destruct (_AliasDict.expand_aliases (S depth) (Some al) ks) as [e2|r2];
        [|done]. intros [= <-]. by apply IHk.
  - destruct (_AliasDict.expand_aliases (S depth) (Some al) ks) as [e2|r2];
      [|done]. intros [= <-]. by apply IHk.
Qed.

Lemma update_error depth : forall items d e,
  (forall k v d e, (_AliasDict.__setitem__ depth (Some al) k v d).1 = inl e ->
                   e = RuntimeError) ->
  (_AliasDict.update depth (Some al) items d).1 = inl e -> e = RuntimeError.
Proof.
  intros items d e Hset. revert d. induction items as [|[k v] items IH]; intros d.
  - done.
  - cbn [_AliasDict.update].
    destruct (_AliasDict.__setitem__ depth (Some al) k v d) as [[e1|[]] d'] eqn:E.
    + cbn. intros [= <-]. eapply (Hset k v d). by rewrite E.
    + apply IH.
Qed.

Lemma setitem_error depth : forall k v d e,
  (_AliasDict.__setitem__ depth (Some al) k v d).1 = inl e -> e = RuntimeError.
Proof.
  induction depth as [|depth IHd]; intros k v d e; [by intros [= <-]|].
  destruct (al !! k) as [aliased|] eqn:E.
  - rewrite (setitem_alias _ _ _ _ _ E). by apply update_error.
  - by rewrite (setitem_plain _ _ _ _ E).
Qed.

(** X17. An alias that stands for itself cannot be used: at every depth
    allowed to the recursion, expanding a list that holds it and assigning
    to it both end in [RuntimeError]. *)
Theorem alias_of_itself_never_returns k ks depth :
  al !! k = Some ks -> k ∈ ks ->
  (forall keys, k ∈ keys ->
     _AliasDict.expand_aliases depth (Some al) keys = inl RuntimeError)
  /\ (forall v d,
        (_AliasDict.__setitem__ depth (Some al) k v d).1 = inl RuntimeError).
Proof.
  intros Hk Hin. induction depth as [|depth [IHe IHs]]; [done|]. split.
  - induction keys as [|key rest IHk]; [by intros ?%elem_of_nil|].
    intros Hkeys. rewrite expand_aliases_cons.
    destruct (al !! key) as [aliased|] eqn:E.
    + destruct (_AliasDict.expand_aliases depth (Some al) aliased) as [e1|r1] eqn:E1.
      * by rewrite (expand_aliases_error _ _ _ E1).
      * apply elem_of_cons in Hkeys as [<-|Hrest].
        -- rewrite Hk in E. injection E as <-. by rewrite (IHe ks Hin) in E1.
        -- by rewrite (IHk Hrest).
    + apply elem_of_cons in Hkeys as [<-|Hrest]; [by rewrite Hk in E|].
      by rewrite (IHk Hrest).
  - intros v d. rewrite (setitem_alias _ _ _ _ _ Hk).
    clear Hk. revert d. induction ks as [|k' ks' IHks]; intros d;
      [by apply elem_of_nil in Hin|].
    cbn [map _AliasDict.update].
    destruct (_AliasDict.__setitem__ depth (Some al) k' v d) as [[e1|[]] d'] eqn:E.
    + cbn. f_equal. eapply (setitem_error depth k' v d). by rewrite E.
    + apply elem_of_cons in Hin as [->|Hin'].
      * specialize (IHs v d). by rewrite E in IHs.
      * by apply IHks.
Qed.

End Aliases.

(** X18. An [_AliasDict] made without aliases takes no item: the
    [aliases] argument defaults to [None], and every assignment, so also
    the construction from a non-empty [arg], raises [TypeError] and leaves
    the dictionary as it was; only the construction from nothing goes
    through. *)
Theorem alias_dict_without_aliases depth :
  0 < depth ->
  (forall key v d, _AliasDict.__setitem__ depth None key v d = (inl TypeError, d))
  /\ (forall item items,
        _AliasDict.__init__ depth (Some (item :: items)) None = (inl TypeError, ∅))
  /\ _AliasDict.__init__ depth (Some []) None = (inr tt, ∅)
  /\ _AliasDict.__init__ depth None None = (inr tt, ∅).
Proof.
  intros Hpos. destruct depth as [|depth]; [lia|]. split_and!; try done.
  by intros [k v] items.
Qed.

Lemma output_aliases_lookup key :
  output_aliases !! key
  = if String.eqb key "everything"
    then Some ["warnings"; "running"; "user"; "output"]
    else if String.eqb key "output" then Some ["stdout"; "stderr"] else None.
Proof.
  unfold output_aliases. cbn [list_to_map foldr fst snd].
  destruct (String.eqb key "everything") eqn:E1.
  - apply String.eqb_eq in E1 as ->. by rewrite lookup_insert_eq.
  - apply String.eqb_neq in E1. rewrite lookup_insert_ne by done.
    destruct (String.eqb key "output") eqn:E2.
    + apply String.eqb_eq in E2 as ->. by rewrite lookup_insert_eq.
    + apply String.eqb_neq in E2. by rewrite lookup_insert_ne.
Qed.

(** X19. With the aliases of [output], assigning a value to [everything]
    assigns it to [warnings], [running], [user], [stdout] and [stderr] and
    to nothing else, [everything] and [output] themselves included; the
    relay of either stream then prints exactly when the value is true. *)
Theorem output_everything depth v d which :
  3 <= depth ->
  let d' := set_keys ["warnings"; "running"; "user"; "stdout"; "stderr"] v d in
  _AliasDict.__setitem__ depth (Some output_aliases) "everything" v d = (inr tt, d')
  /\ d' !! "everything" = d !! "everything"
  /\ d' !! "output" = d !! "output"
  /\ exists flags, output_flags d' = Some flags
                    /\ printing flags which = truth v.
Proof.
  intros Hdepth. cbv zeta.
  destruct depth as [|[|[|depth]]]; try lia. split_and!.
  - rewrite (setitem_alias output_aliases _ "everything"
               ["warnings"; "running"; "user"; "output"])
      by by rewrite output_aliases_lookup.
    cbn [map _AliasDict.update].
    rewrite !(setitem_plain output_aliases) by by rewrite output_aliases_lookup.
    rewrite (setitem_alias output_aliases _ "output" ["stdout"; "stderr"])
      by by rewrite output_aliases_lookup.
    cbn [map _AliasDict.update].
    by rewrite !(setitem_plain output_aliases) by by rewrite output_aliases_lookup.
  - by rewrite set_keys_lookup.
  - by rewrite set_keys_lookup.
  - unfold output_flags. rewrite !set_keys_lookup. cbn.
    eexists. split; [done|]. unfold printing. by destruct (String.eqb which "recv").
Qed.

(** * The decorators *)

Import Decorators.

Section DecoratorFacts.

Context {A W V E : Type}.

Lemma list_of_unpack_strings (l : list arg) :
  Forall (fun a => is_basestring a = true) l ->
  list_of (unpack l) = inr l /\ list_of (unpack [ASeq l]) = inr l.
Proof.
  intros Hl. split; [|done].
  destruct l as [|a [|b l]]; try done.
  apply Forall_cons in Hl as [Ha _]. unfold unpack. by rewrite Ha.
Qed.

(** X20. [hosts] and [roles] take the host or role strings as their
    arguments or as one iterable of them, with the same result: the
    function given, with its [hosts] or [roles] attribute set to the list
    of the strings and nothing else changed, neither its code, nor its
    name, nor its documentation, nor another attribute. One string is one
    host, not a sequence of characters. *)
Theorem hosts_arguments_or_iterable (l : list arg) (func : function A W V E) :
  Forall (fun a => is_basestring a = true) l ->
  (exists f, hosts l func = inr f /\ hosts [ASeq l] func = inr f
             /\ hosts_attr f = Some l /\ roles_attr f = roles_attr func
             /\ call f = call func
             /\ return_value_attr f = return_value_attr func
             /\ __name__ f = __name__ func /\ __doc__ f = __doc__ func)
  /\ (exists f, roles l func = inr f /\ roles [ASeq l] func = inr f
                /\ roles_attr f = Some l /\ hosts_attr f = hosts_attr func
                /\ call f = call func
                /\ return_value_attr f = return_value_attr func
                /\ __name__ f = __name__ func /\ __doc__ f = __doc__ func).
Proof.
  intros Hl. destruct (list_of_unpack_strings l Hl) as [H1 H2].
  unfold hosts, roles, attach_hosts, attach_roles. rewrite H1, H2.
  split; eexists; split_and!; reflexivity.
Qed.

(** X21. Given one argument that is neither a string nor iterable,
    [hosts] and [roles] raise [TypeError], and they do so when the
    decorator is applied to the function. *)
Theorem hosts_of_a_non_iterable (func : function A W V E) :
  hosts [AOther] func = inl TypeError /\ roles [AOther] func = inl TypeError.
Proof. done. Qed.



Lemma decorated_calls_stored (self : wrapper A W V E) v argss : forall w,
  return_value self = Some v ->
  decorated_calls self argss w = (replicate (length argss) (inr v), (self, w)).
Proof.
  induction argss as [|args rest IH]; intros w Hv; [done|].
  cbn [decorated_calls]. unfold decorated. rewrite Hv. cbn [fst snd].
  rewrite IH by done. reflexivity.
Qed.

(** X23. When the function wrapped by [run_once] has no [return_value]
    attribute of its own and returns at the first call, every call of the
    wrapper returns the value of that first run, whatever its arguments,
    and the state is the one left by that single run: the function has
    been run once. *)
Theorem run_once_runs_once (func : function A W V E) args argss w v w' :
  return_value_attr func = None ->
  call func args w = (inr v, w') ->
  decorated_calls (run_once func) (args :: argss) w
  = (replicate (S (length argss)) (inr v),
     (set_return_value v (run_once func), w')).
Proof.
  intros Hnone Hcall. cbn [decorated_calls]. unfold decorated.
  cbn [run_once return_value _decorated]. rewrite Hnone, Hcall. cbn [fst snd].
  rewrite (decorated_calls_stored _ v) by done. reflexivity.
Qed.

(** X24. [wraps] copies the attributes of the function to the wrapper:
    when the function carries a [return_value] attribute already, the
    wrapper returns that value at every call and the function is never
    run. *)
Theorem run_once_on_a_stored_value (func : function A W V E) argss w v :
  return_value_attr func = Some v ->
  decorated_calls (run_once func) argss w
  = (replicate (length argss) (inr v), (run_once func, w)).
Proof. intros Hv. by apply decorated_calls_stored. Qed.

(** X25. A run that raises stores nothing: the exception goes to the
    caller with the state the run left, and the next call runs the
    function again; the value of the first run that returns is the one
    kept. *)
Theorem run_once_retries_after_exception (func : function A W V E)
    a1 a2 argss w e w1 v w2 :
  return_value_attr func = None ->
  call func a1 w = (inl e, w1) ->
  call func a2 w1 = (inr v, w2) ->
  decorated_calls (run_once func) (a1 :: a2 :: argss) w
  = (inl e :: replicate (S (length argss)) (inr v),
     (set_return_value v (run_once func), w2)).
Proof.
  intros Hnone H1 H2.
  assert (decorated (run_once func) a1 w = (inl e, (run_once func, w1))) as Hd.
  { unfold decorated. cbn [run_once return_value _decorated]. by rewrite Hnone, H1. }
  change (decorated_calls (run_once func) (a1 :: a2 :: argss) w)
    with (let r := decorated (run_once func) a1 w in
          let rs := decorated_calls r.2.1 (a2 :: argss) r.2.2 in
          (r.1 :: rs.1, rs.2)).
  cbv zeta. rewrite Hd. cbn [fst snd].
  by rewrite (run_once_runs_once func a2 argss w1 v w2 Hnone H2).
Qed.

End DecoratorFacts.

(** * The credential cache during a run *)

Section OutputCache.

Variable env : Env.
Variable output : Output.
Variable operator : nat -> string.
Variable which : string.

Abbreviation output_step := (output_step env output operator which).
Abbreviation output_bytes := (output_bytes env output operator which).
Abbreviation output_loop := (output_loop env output operator which).

(** What has happened to the cache between the worlds [w] and [w']:
    nothing, or the operator has been asked and the cache holds the last
    answer. *)
Lemma output_step_cache st b w c buf :
  capture st = Some c -> heap w !! c = Some buf ->
  let r := output_step st b w in
  (asked (world r) = asked w /\ cache (world r) = cache w)
  \/ (asked (world r) = S (asked w)
      /\ cache (world r)
         = cache_set (host_string env) (operator (asked w)) (cache w)).
Proof.
  intros Hc Hb. cbv zeta.
  rewrite (output_step_eq env output operator which _ _ _ _ _ Hc Hb). cbv zeta.
  destruct (Io.prompt env (buf ++ [b])); [|destruct (Io.try_again env (buf ++ [b]))];
    cbn [world]; [|by left..].
  destruct (Py.truthy (cache_get (host_string env) (cache w))) eqn:Ht;
    [destruct (reprompt st) eqn:Hre|].
  2: { left. by rewrite resolve_cached. }
  all: right;
    destruct (resolve_ask env output operator which st
                (cache_get (host_string env) (cache w))
                (world (del_tail c (Py.len (sudo_prompt env))
                          (world (extend c b w)))))
      as (notice & _ & ->); auto.
Qed.

Lemma output_bytes_cache data : forall st w c buf,
  capture st = Some c -> heap w !! c = Some buf ->
  let r := output_bytes st data w in
  (asked (world r) = asked w /\ cache (world r) = cache w)
  \/ (asked w < asked (world r)
      /\ cache_get (host_string env) (cache (world r))
         = Some (operator (asked (world r) - 1))).
Proof.
  induction data as [|b data IH]; intros st w c buf Hc Hb; [by left|].
  rewrite output_bytes_cons. cbv zeta. cbn [world].
  destruct (output_step_valid env output operator which st b w c buf Hc Hb)
    as (c' & buf' & Hc' & Hb').
  specialize (IH _ _ c' buf' Hc' Hb'). cbv zeta in IH.
  destruct (output_step_cache st b w c buf Hc Hb) as [[Ha Hcache]|[Ha Hcache]];
    destruct IH as [[Ha' Hcache']|[Ha' Hcache']].
  - left. split; congruence.
  - right. split; [lia|done].
  - right. split; [lia|]. rewrite Hcache', Hcache, Ha', Ha, cache_get_set.
    do 2 f_equal. lia.
  - right. split; [lia|done].
Qed.

(** X26. At the end of a run of a capturing relay, either the operator
    has not been asked and the credential cache is as it was, or
    [get_password] returns the password the operator typed last. *)
Theorem cache_holds_last_typed c buf data w :
  heap w !! c = Some buf ->
  let r := output_loop (Some c) data w in
  (asked (world r) = asked w /\ cache (world r) = cache w)
  \/ (asked w < asked (world r)
      /\ cache_get (host_string env) (cache (world r))
         = Some (operator (asked (world r) - 1))).
Proof.
  intros Hb. cbv zeta. rewrite output_loop_eq. cbv zeta. cbn [world].
  by apply (output_bytes_cache data _ w c buf).
Qed.

End OutputCache.

(** * The properties above at work *)

Lemma displayed_text_witness :
  let data := [Py.LF; "b"%char] in
  let r := output_loop default_env default_output types_secret "recv" (Some 0)
             data (mkWorld [[]] None) in
  flushed Stdout (events r)
  = if pipe_eqb Stdout (opipe "recv")
    then match data with
         | [] => []
         | _ :: _ => Py.chars (_prefix default_env "recv")
                       ++ flat_map (shown (_prefix default_env "recv")) data
         end
    else [].
Proof.
  apply (displayed_text default_env default_output types_secret "recv" 0 []
           [Py.LF; "b"%char] (mkWorld [[]] None) Stdout); reflexivity.
Defined.

Lemma hidden_output_is_silent_witness :
  Forall (fun e => ~ is_flush e)
    (events (output_loop default_env hidden_output types_secret "recv" (Some 0)
               (Py.chars "sudo password:") (mkWorld [[]] (Some "pw")))).
Proof.
  apply (hidden_output_is_silent default_env hidden_output types_secret "recv" 0 []
           (Py.chars "sudo password:") (mkWorld [[]] (Some "pw")));
    reflexivity.
Defined.

Lemma one_password_per_prompt_match_witness :
  let w := mkWorld [[]] None in
  let r := output_loop default_env default_output types_secret "recv" (Some 0)
             (Py.chars "sudo password:") w in
  count is_sendall (events r) = count is_get_password (events r)
  /\ count is_get_password (events r) = count is_del_tail (events r)
  /\ count is_ask (events r) = count is_set_password (events r)
  /\ count is_ask (events r) <= count is_sendall (events r)
  /\ asked (world r) = asked w + count is_ask (events r).
Proof.
  apply (one_password_per_prompt_match default_env default_output types_secret
           "recv" 0 [] (Py.chars "sudo password:") (mkWorld [[]] None)).
  reflexivity.
Defined.

Lemma caller_list_frozen_after_retry_witness :
  let w := mkWorld [Py.chars "Sorry, try again."] None in
  let r1 := output_step default_env default_output types_secret "recv" fresh Py.LF w in
  let r := output_bytes default_env default_output types_secret "recv"
             (val r1) (Py.chars "xy") (world r1) in
  heap (world r) !! 0 = Some (Py.chars "Sorry, try again." ++ [Py.LF])
  /\ capture (val r) <> Some 0.
Proof.
  apply (caller_list_frozen_after_retry default_env default_output types_secret
           "recv" fresh Py.LF (Py.chars "xy")
           (mkWorld [Py.chars "Sorry, try again."] None) 0
           (Py.chars "Sorry, try again.")); reflexivity.
Defined.

Lemma retry_on_leading_retry_string_witness :
  let w := mkWorld [Py.chars "Sorry, try again."] None in
  let r := output_step default_env default_output types_secret "recv" fresh Py.LF w in
  exists c',
    capture (val r) = Some c' /\ c' <> 0
    /\ heap (world r) !! c' = Some (Py.chars (again_prompt default_env)).
Proof.
  apply (retry_on_leading_retry_string default_env default_output types_secret
           "recv" fresh Py.LF (mkWorld [Py.chars "Sorry, try again."] None) 0
           (Py.chars "Sorry, try again.")); try reflexivity.
  by exists [Py.LF].
Defined.

Lemma cache_holds_last_typed_witness :
  let w := mkWorld [[]] None in
  let r := output_loop default_env default_output types_secret "recv" (Some 0)
             (Py.chars "sudo password:") w in
  (asked (world r) = asked w /\ cache (world r) = cache w)
  \/ (asked w < asked (world r)
      /\ cache_get (host_string default_env) (cache (world r))
         = Some (types_secret (asked (world r) - 1))).
Proof.
  apply (cache_holds_last_typed default_env default_output types_secret "recv"
           0 [] (Py.chars "sudo password:") (mkWorld [[]] None)).
  reflexivity.
Defined.

Lemma attribute_read_is_idempotent_witness :
  let d : gmap string value := {["a" := VDict ∅]} in
  let v := VAttrDict ∅ in
  let d' : gmap string value := <["a" := v]> d in
  AttributeDict.__getitem__ "a" d' = (inr v, d')
  /\ AttributeDict.keys d' = AttributeDict.keys d
  /\ (forall k, k <> "a" -> d' !! k = d !! k).
Proof.
  apply (attribute_read_is_idempotent "a" (VAttrDict ∅) {["a" := VDict ∅]}
           (<["a" := VAttrDict ∅]> {["a" := VDict ∅]})).
  vm_compute. reflexivity.
Defined.

Lemma attribute_missing_key_witness :
  AttributeDict.__getitem__ "host" ∅ = (inl (KeyError "host"), ∅)
  /\ AttributeDict.__delitem__ "host" ∅ = (inl (KeyError "host"), ∅)
  /\ AttributeDict.getattr on_base_classes "host" ∅
     = if bool_decide ("host" ∈ AttributeDict.own_names) || on_base_classes "host"
       then (AttributeDict.Found "host", ∅)
       else (AttributeDict.Fallback (inl (AttributeError "host")), ∅).
Proof. apply (attribute_missing_key on_base_classes "host" ∅). reflexivity. Defined.

(** The two cases of the read of an attribute that is not an item: [host]
    goes to [__getattr__], [keys] is the method of the class. *)
Example attribute_missing_key_cases :
  AttributeDict.getattr on_base_classes "host" ∅
  = (AttributeDict.Fallback (inl (AttributeError "host")), ∅)
  /\ AttributeDict.getattr on_base_classes "keys" ∅ = (AttributeDict.Found "keys", ∅)
  /\ AttributeDict.getattr on_base_classes "_data" (<["_data" := VInt 1]> ∅)
     = (AttributeDict.Found "_data", <["_data" := VInt 1]> ∅).
Proof. vm_compute. done. Qed.

Lemma output_aliases_ranked : ranked output_aliases output_rank.
Proof.
  intros k ks. rewrite output_aliases_lookup. unfold output_rank.
  destruct (String.eqb k "everything"); [|destruct (String.eqb k "output")];
    intros [= <-]; (split; [lia|]); repeat constructor.
Qed.

Lemma expand_aliases_returns_witness :
  exists ret,
    _AliasDict.expand_aliases 3 (Some output_aliases) ["everything"; "debug"]
    = inr ret
    /\ Forall (fun k => output_aliases !! k = None) ret.
Proof.
  apply (expand_aliases_returns output_aliases output_rank 3
           ["everything"; "debug"]).
  - exact output_aliases_ranked.
  - lia.
  - repeat constructor.
Defined.

Lemma assign_through_aliases_witness :
  let ret := ["stdout"; "stderr"] in
  let v := VBool false in
  exists d',
    _AliasDict.__setitem__ 2 (Some output_aliases) "output" v ∅ = (inr tt, d')
    /\ (forall k, k ∈ ret -> d' !! k = Some v)
    /\ (forall k, k ∉ ret -> d' !! k = (∅ : gmap string value) !! k)
    /\ Forall (fun k => output_aliases !! k = None) ret.
Proof.
  apply (assign_through_aliases output_aliases 2 "output" ["stdout"; "stderr"]
           (VBool false) ∅).
  vm_compute. reflexivity.
Defined.

Lemma expand_aliases_app_witness :
  _AliasDict.expand_aliases 2 (Some output_aliases) (["output"] ++ ["output"])
  = inr (["stdout"; "stderr"] ++ ["stdout"; "stderr"]).
Proof.
  apply (expand_aliases_app output_aliases 2 ["output"] ["output"]);
    vm_compute; reflexivity.
Defined.

Lemma alias_of_itself_never_returns_witness :
  let al : gmap string (list string) := {["a" := ["b"; "a"]]} in
  (forall keys, "a" ∈ keys ->
     _AliasDict.expand_aliases 5 (Some al) keys = inl RuntimeError)
  /\ (forall v d,
        (_AliasDict.__setitem__ 5 (Some al) "a" v d).1 = inl RuntimeError).
Proof.
  apply (alias_of_itself_never_returns {["a" := ["b"; "a"]]} "a" ["b"; "a"] 5).
  - apply lookup_singleton_eq.
  - apply elem_of_cons. right. apply elem_of_cons. by left.
Defined.

Lemma alias_dict_without_aliases_witness :
  (forall key v d, _AliasDict.__setitem__ 1 None key v d = (inl TypeError, d))
  /\ (forall item items,
        _AliasDict.__init__ 1 (Some (item :: items)) None = (inl TypeError, ∅))
  /\ _AliasDict.__init__ 1 (Some []) None = (inr tt, ∅)
  /\ _AliasDict.__init__ 1 None None = (inr tt, ∅).
Proof. apply (alias_dict_without_aliases 1). lia. Defined.

Lemma output_everything_witness :
  let v := VBool false in
  let d : gmap string value := list_to_map output_items in
  let d' := set_keys ["warnings"; "running"; "user"; "stdout"; "stderr"] v d in
  _AliasDict.__setitem__ 3 (Some output_aliases) "everything" v d = (inr tt, d')
  /\ d' !! "everything" = d !! "everything"
  /\ d' !! "output" = d !! "output"
  /\ exists flags, output_flags d' = Some flags
                    /\ printing flags "recv" = truth v.
Proof.
  apply (output_everything 3 (VBool false) (list_to_map output_items) "recv").
  lia.
Defined.

Lemma hosts_arguments_or_iterable_witness :
  let l := [AStr "user1@host1"; AStr "host2"] in
  (exists f, hosts l counting = inr f /\ hosts [ASeq l] counting = inr f
             /\ hosts_attr f = Some l /\ roles_attr f = roles_attr counting
             /\ call f = call counting
             /\ return_value_attr f = return_value_attr counting
             /\ __name__ f = __name__ counting /\ __doc__ f = __doc__ counting)
  /\ (exists f, roles l counting = inr f /\ roles [ASeq l] counting = inr f
                /\ roles_attr f = Some l /\ hosts_attr f = hosts_attr counting
                /\ call f = call counting
                /\ return_value_attr f = return_value_attr counting
                /\ __name__ f = __name__ counting /\ __doc__ f = __doc__ counting).
Proof.
  apply (hosts_arguments_or_iterable [AStr "user1@host1"; AStr "host2"] counting).
  repeat constructor.
Defined.


(** The two orders on a [roles] argument that cannot be iterated: both
    raise [TypeError]. *)
Example hosts_and_roles_commute_on_error :
  match hosts [AStr "host1"] counting with
  | inr f => roles [AOther] f
  | inl e => inl e
  end = inl TypeError
  /\ match roles [AOther] counting with
     | inr f => hosts [AStr "host1"] f
     | inl e => inl e
     end = inl TypeError.
Proof. done. Qed.

Lemma run_once_runs_once_witness :
  decorated_calls (run_once counting) [5; 6; 7] 10
  = (replicate 3 (inr 15), (set_return_value 15 (run_once counting), 11)).
Proof.
  apply (run_once_runs_once counting 5 [6; 7] 10 15 11); reflexivity.
Defined.

Lemma run_once_on_a_stored_value_witness :
  decorated_calls (run_once marked) [5; 6] 10
  = (replicate 2 (inr 7), (run_once marked, 10)).
Proof. apply (run_once_on_a_stored_value marked [5; 6] 10 7). reflexivity. Defined.

Lemma run_once_retries_after_exception_witness :
  decorated_calls (run_once failing_first) [5; 6; 7] 0
  = (inl "failed" :: replicate 2 (inr 6),
     (set_return_value 6 (run_once failing_first), 2)).
Proof.
  apply (run_once_retries_after_exception failing_first 5 6 [7] 0 "failed" 1 6 2);
    reflexivity.
Defined.
